(** * AeonVault: the encrypted credential store of [storage.py]

    A shallow embedding of [AESEncryptor] and [PasswordStorage] and the
    properties of the vault's cryptographic and lifecycle layer.

    Python values are modelled as follows.
    - [bytes] objects are lists of [Byte.byte].
    - [str] objects are lists of code points (numbers in [N]); a Python
      [str] may hold any code point up to 0x10FFFF, lone surrogates
      included, and [str.encode()] raises on the latter.
    - A raised exception is the [Raise] alternative of [result].
    - The SQLite table [passwords], whose column [service] is the primary
      key, is a finite map from service names to (login, password) rows.
    - What is drawn at random is an input: [AESEncryptor]'s methods take
      the bytes [get_random_bytes] or [AES.new] would draw as an argument,
      and [PasswordStorage]'s methods read them, as they read the answers
      to [getpass], from the state they run in.

    The library functions the program calls are embedded with the behaviour
    of the library: UTF-8 ([str.encode], [bytes.decode]) and Base64
    ([base64.b64encode], [base64.b64decode]) are written out; the block
    cipher, the key derivation function and the hash stay abstract in the
    class [Crypto]. *)

From Stdlib Require Import NArith ZArith Lia List Strings.Byte Strings.String.
From stdpp Require Import base option list gmap sorting.

Local Open Scope N_scope.

(** ** Bytes *)

Abbreviation bytes := (list byte).

Definition ord (b : byte) : N := Byte.to_N b.

(** The byte whose value is [n] modulo 256, as a C [unsigned char] store. *)
Definition chr (n : N) : byte :=
  match Byte.of_N (n mod 256) with
  | Some b => b
  | None => x00
  end.

Definition byte_eqb (a b : byte) : bool := ord a =? ord b.

Definition byte_xor (a b : byte) : byte := chr (N.lxor (ord a) (ord b)).

(** ** Exceptions and results *)

Inductive exn : Type :=
  | UnicodeEncodeError
  | UnicodeDecodeError
  | binascii_Error
  | ValueError (msg : string)
  | FileNotFoundError
  | EOFError
  | AttributeError
  | sqlite3_ProgrammingError.

(** [except ValueError] also catches the subclasses of [ValueError]:
    [UnicodeError] (and so both Unicode errors) and [binascii.Error]. *)
Definition is_ValueError (e : exn) : bool :=
  match e with
  | UnicodeEncodeError | UnicodeDecodeError | binascii_Error | ValueError _ => true
  | FileNotFoundError | EOFError | AttributeError | sqlite3_ProgrammingError =>
      false
  end.

Inductive result (A : Type) : Type :=
  | Return (a : A)
  | Raise (e : exn).
Arguments Return {A} a.
Arguments Raise {A} e.

Definition bind {A B : Type} (m : result A) (k : A -> result B) : result B :=
  match m with
  | Return a => k a
  | Raise e => Raise e
  end.

Definition rmap {A B : Type} (f : A -> B) (m : result A) : result B :=
  bind m (fun a => Return (f a)).

Notation "'do' x <- m ; k" := (bind m (fun x => k))
  (at level 10, x name, m at level 100, k at level 200,
   format "'[v' 'do'  x  <-  m ; '/' k ']'").

(** ** Text and UTF-8 *)

Abbreviation str := (list N).

Definition is_surrogate (c : N) : bool := (0xD800 <=? c) && (c <=? 0xDFFF).

(** A Unicode scalar value: a code point that is not a surrogate. A [str]
    all of whose elements are scalar values is what [str.encode()] accepts. *)
Definition is_scalar (c : N) : bool := (c <=? 0x10FFFF) && negb (is_surrogate c).

Definition utf8_char (c : N) : result bytes :=
  if c <? 0x80 then Return [chr c]
  else if c <? 0x800 then Return [chr (0xC0 + c / 64); chr (0x80 + c mod 64)]
  else if c <? 0x10000 then
    if is_surrogate c then Raise UnicodeEncodeError
    else Return [chr (0xE0 + c / 4096); chr (0x80 + (c / 64) mod 64);
                 chr (0x80 + c mod 64)]
  else if c <? 0x110000 then
    Return [chr (0xF0 + c / 262144); chr (0x80 + (c / 4096) mod 64);
            chr (0x80 + (c / 64) mod 64); chr (0x80 + c mod 64)]
  else Raise UnicodeEncodeError.

(** [s.encode()] (UTF-8, strict). *)
Fixpoint str_encode (s : str) : result bytes :=
  match s with
  | [] => Return []
  | c :: s' =>
      do b <- utf8_char c;
      do r <- str_encode s';
      Return (b ++ r)
  end.

Definition is_cont (b : byte) : bool := (0x80 <=? ord b) && (ord b <? 0xC0).

Definition cont (b : byte) : N := ord b - 0x80.

(** [b.decode()] (UTF-8, strict): truncated, overlong and surrogate
    sequences and values above 0x10FFFF are rejected. *)
Fixpoint bytes_decode (b : bytes) : result str :=
  match b with
  | [] => Return []
  | b0 :: r0 =>
      let n0 := ord b0 in
      if n0 <? 0x80 then rmap (cons n0) (bytes_decode r0)
      else if n0 <? 0xC2 then Raise UnicodeDecodeError
      else if n0 <? 0xE0 then
        match r0 with
        | b1 :: r1 =>
            if is_cont b1
            then rmap (cons ((n0 - 0xC0) * 64 + cont b1)) (bytes_decode r1)
            else Raise UnicodeDecodeError
        | _ => Raise UnicodeDecodeError
        end
      else if n0 <? 0xF0 then
        match r0 with
        | b1 :: b2 :: r2 =>
            let c := (n0 - 0xE0) * 4096 + cont b1 * 64 + cont b2 in
            if is_cont b1 && is_cont b2 && (0x800 <=? c) && negb (is_surrogate c)
            then rmap (cons c) (bytes_decode r2)
            else Raise UnicodeDecodeError
        | _ => Raise UnicodeDecodeError
        end
      else if n0 <? 0xF5 then
        match r0 with
        | b1 :: b2 :: b3 :: r3 =>
            let c := (n0 - 0xF0) * 262144 + cont b1 * 4096 + cont b2 * 64 + cont b3 in
            if is_cont b1 && is_cont b2 && is_cont b3
               && (0x10000 <=? c) && (c <? 0x110000)
            then rmap (cons c) (bytes_decode r3)
            else Raise UnicodeDecodeError
        | _ => Raise UnicodeDecodeError
        end
      else Raise UnicodeDecodeError
  end.

(** The characters [str.strip()] removes: those with [str.isspace()]. *)
Definition isspace (c : N) : bool :=
  ((0x09 <=? c) && (c <=? 0x0D)) || ((0x1C <=? c) && (c <=? 0x20))
  || (c =? 0x85) || (c =? 0xA0) || (c =? 0x1680)
  || ((0x2000 <=? c) && (c <=? 0x200A))
  || (c =? 0x2028) || (c =? 0x2029) || (c =? 0x202F) || (c =? 0x205F)
  || (c =? 0x3000).

Fixpoint lstrip (s : str) : str :=
  match s with
  | c :: s' => if isspace c then lstrip s' else s
  | [] => []
  end.

Definition strip (s : str) : str := rev (lstrip (rev (lstrip s))).

(** The order of SQLite's default [BINARY] collation on [TEXT] values:
    [memcmp] of the UTF-8 encodings, which is the lexicographic order of
    the code points. *)
Fixpoint str_leb (a b : str) : bool :=
  match a, b with
  | [], _ => true
  | _ :: _, [] => false
  | x :: a', y :: b' =>
      if x <? y then true else if y <? x then false else str_leb a' b'
  end.

Definition str_le (a b : str) : Prop := str_leb a b = true.

#[global] Instance str_le_dec : RelDecision str_le.
Proof. intros a b. unfold str_le. apply _. Defined.

(** ** Base64

    [base64.b64encode] is [binascii.b2a_base64] without the final newline;
    [base64.b64decode], called without [validate], is [binascii.a2b_base64]
    in its lenient mode: bytes outside the alphabet are skipped, a padding
    sequence that completes a quad ends the input, and leftover data bits
    are dropped. *)

Definition table_b2a_base64 : bytes :=
  list_byte_of_string
    "ABCDEFGHIJKLMNOPQRSTUVWXYZabcdefghijklmnopqrstuvwxyz0123456789+/".

Definition BASE64_PAD : byte := "=".

Definition b2a (v : N) : byte := nth (N.to_nat v) table_b2a_base64 x00.

Fixpoint index_of (c : byte) (t : bytes) : option N :=
  match t with
  | [] => None
  | x :: t' => if byte_eqb c x then Some 0 else N.succ <$> index_of c t'
  end.

Definition a2b (c : byte) : option N := index_of c table_b2a_base64.

Fixpoint b2a_base64 (data : bytes) : bytes :=
  match data with
  | [] => []
  | [x] =>
      [b2a (ord x / 4); b2a (ord x mod 4 * 16); BASE64_PAD; BASE64_PAD]
  | [x; y] =>
      [b2a (ord x / 4); b2a (ord x mod 4 * 16 + ord y / 16);
       b2a (ord y mod 16 * 4); BASE64_PAD]
  | x :: y :: z :: rest =>
      [b2a (ord x / 4); b2a (ord x mod 4 * 16 + ord y / 16);
       b2a (ord y mod 16 * 4 + ord z / 64); b2a (ord z mod 64)]
      ++ b2a_base64 rest
  end.

(** The decoding loop: [quad_pos] counts the data characters of the current
    quad, [leftchar] holds the bits not yet written, [pads] counts the
    padding characters seen since the last data character. *)
Fixpoint a2b_loop (quad_pos : nat) (leftchar : N) (pads : nat) (s : bytes)
  : result bytes :=
  match s with
  | [] => if decide (quad_pos = 0%nat) then Return [] else Raise binascii_Error
  | this_ch :: rest =>
      if byte_eqb this_ch BASE64_PAD then
        if decide (2 <= quad_pos)%nat then
          if decide (4 <= quad_pos + S pads)%nat then Return []
          else a2b_loop quad_pos leftchar (S pads) rest
        else a2b_loop quad_pos leftchar pads rest
      else
        match a2b this_ch with
        | None => a2b_loop quad_pos leftchar pads rest
        | Some v =>
            match quad_pos with
            | 0%nat => a2b_loop 1 v 0 rest
            | 1%nat =>
                rmap (cons (chr (leftchar * 4 + v / 16)))
                     (a2b_loop 2 (v mod 16) 0 rest)
            | 2%nat =>
                rmap (cons (chr (leftchar * 16 + v / 4)))
                     (a2b_loop 3 (v mod 4) 0 rest)
            | _ =>
                rmap (cons (chr (leftchar * 64 + v)))
                     (a2b_loop 0 0 0 rest)
            end
        end
  end.

Definition a2b_base64 (s : bytes) : result bytes := a2b_loop 0 0 0 s.

Definition b64encode (s : bytes) : bytes := b2a_base64 s.

Definition b64decode (s : bytes) : result bytes := a2b_base64 s.

(** ** The cryptographic library

    PyCryptodome's and hashlib's primitives. AES in GCM mode is the
    composition the mode defines: the data are XORed with a key stream that
    depends on the key, the nonce and the position, and the tag is a
    function of the key, the nonce and the ciphertext (there is no
    associated data in this program). *)

Class Crypto : Type := {
  (** [PBKDF2(password, salt, dkLen=32, count=100000)] *)
  PBKDF2 : bytes -> bytes -> bytes;
  (** [hashlib.sha256(data).hexdigest()] *)
  sha256_hexdigest : bytes -> str;
  (** the byte at a position of the key stream of (key, nonce) *)
  gcm_keystream : bytes -> bytes -> nat -> byte;
  (** the tag of a ciphertext under (key, nonce) *)
  gcm_tag : bytes -> bytes -> bytes -> bytes
}.

(** The tag of the mode has 16 bytes ([mac_len] is left at its default). *)
Definition gcm_tag_16 (L : Crypto) : Prop :=
  forall key nonce c, length (gcm_tag key nonce c) = 16%nat.

#[global] Instance byte_eq_dec : EqDecision byte := Byte.byte_eq_dec.

Section GcmMode.
Context {L : Crypto}.

(** [cipher.encrypt] and [cipher.decrypt]: the same XOR. *)
Definition gcm_crypt (key nonce data : bytes) : bytes :=
  imap (fun i b => byte_xor b (gcm_keystream key nonce i)) data.

(** [AES.new(key, AES.MODE_GCM, nonce=nonce)] refuses an empty nonce. Its
    check of the key size is left out: the key is always the 32 bytes
    [PBKDF2] is asked for. *)
Definition AES_new (key nonce : bytes) : result (bytes * bytes) :=
  match nonce with
  | [] => Raise (ValueError "Nonce cannot be empty")
  | _ => Return (key, nonce)
  end.

Definition encrypt_and_digest (cipher : bytes * bytes) (plaintext : bytes)
  : bytes * bytes :=
  let ciphertext := gcm_crypt cipher.1 cipher.2 plaintext in
  (ciphertext, gcm_tag cipher.1 cipher.2 ciphertext).

Definition decrypt_and_verify (cipher : bytes * bytes)
    (ciphertext received_mac_tag : bytes) : result bytes :=
  let plaintext := gcm_crypt cipher.1 cipher.2 ciphertext in
  if decide (received_mac_tag = gcm_tag cipher.1 cipher.2 ciphertext)
  then Return plaintext
  else Raise (ValueError "MAC check failed").
End GcmMode.

(** ** [class AESEncryptor] *)

Module AESEncryptor.
Record t : Type := mk { salt : bytes; key : bytes }.

Section Methods.
Context {L : Crypto}.

(** [__init__(self, password, salt=None)]; [random16] is what
    [get_random_bytes(16)] returns when it is called. An empty [salt]
    is falsy, as [None] is. *)
Definition __init__ (random16 : bytes) (password : str)
    (salt : option bytes) : result t :=
  let salt :=
    match salt with
    | Some (b :: s) => b :: s
    | _ => random16
    end in
  do pw <- str_encode password;
  Return {| salt := salt; key := PBKDF2 pw salt |}.

(** [encrypt(self, text)]; [nonce] is the random nonce [AES.new]
    draws (16 bytes) when none is given. *)
Definition encrypt (self : t) (nonce : bytes) (text : str) : result str :=
  do cipher <- AES_new (key self) nonce;
  do plaintext <- str_encode text;
  let '(ciphertext, tag) := encrypt_and_digest cipher plaintext in
  let encrypted := nonce ++ tag ++ ciphertext in
  bytes_decode (b64encode encrypted).

(** [decrypt(self, encrypted_text)] *)
Definition decrypt (self : t) (encrypted_text : str) : result str :=
  do raw <- str_encode encrypted_text;
  do data <- b64decode raw;
  let nonce := take 16 data in
  let tag := take 16 (drop 16 data) in
  let ciphertext := drop 32 data in
  do cipher <- AES_new (key self) nonce;
  do plaintext <- decrypt_and_verify cipher ciphertext tag;
  bytes_decode plaintext.
End Methods.
End AESEncryptor.

(** ** [class PasswordStorage]

    The state the methods work on is the object ([self.crypto],
    [self.conn] with its cursor) together with what it reaches outside:
    the three files ([self.db_file] holding the table [passwords],
    [self.salt_file], [self.hash_file]), the answers [getpass] will read,
    and the bytes [get_random_bytes] will return. Output written with
    [print] is not modelled. *)

Module PasswordStorage.
Abbreviation table := (gmap str (str * str)).

Inductive connection : Type := Connected | ClosedConnection.

Record state : Type := mkState {
  crypto : option AESEncryptor.t;
  conn : option connection;
  db_file : option table;
  salt_file : option bytes;
  hash_file : option str;
  tty : list str;
  entropy : nat -> bytes;
  draws : nat
}.

Definition set_crypto (c : option AESEncryptor.t) (s : state) : state :=
  mkState c (conn s) (db_file s) (salt_file s) (hash_file s) (tty s)
          (entropy s) (draws s).
Definition set_conn (c : option connection) (s : state) : state :=
  mkState (crypto s) c (db_file s) (salt_file s) (hash_file s) (tty s)
          (entropy s) (draws s).
Definition set_db_file (d : option table) (s : state) : state :=
  mkState (crypto s) (conn s) d (salt_file s) (hash_file s) (tty s)
          (entropy s) (draws s).
Definition set_salt_file (f : option bytes) (s : state) : state :=
  mkState (crypto s) (conn s) (db_file s) f (hash_file s) (tty s)
          (entropy s) (draws s).
Definition set_hash_file (f : option str) (s : state) : state :=
  mkState (crypto s) (conn s) (db_file s) (salt_file s) f (tty s)
          (entropy s) (draws s).
Definition set_tty (t : list str) (s : state) : state :=
  mkState (crypto s) (conn s) (db_file s) (salt_file s) (hash_file s) t
          (entropy s) (draws s).
Definition set_draws (n : nat) (s : state) : state :=
  mkState (crypto s) (conn s) (db_file s) (salt_file s) (hash_file s) (tty s)
          (entropy s) n.

(** Computations that read and change the state and may raise. *)
Definition M (A : Type) : Type := state -> result A * state.

Definition ret {A : Type} (a : A) : M A := fun s => (Return a, s).
Definition raise {A : Type} (e : exn) : M A := fun s => (Raise e, s).
Definition lift {A : Type} (r : result A) : M A := fun s => (r, s).
Definition gets {A : Type} (f : state -> A) : M A := fun s => (Return (f s), s).
Definition modify (f : state -> state) : M unit := fun s => (Return tt, f s).
Definition andthen {A B : Type} (m : M A) (k : A -> M B) : M B :=
  fun s =>
    match m s with
    | (Return a, s') => k a s'
    | (Raise e, s') => (Raise e, s')
    end.
(** [try: m except ValueError: h] *)
Definition except_ValueError {A : Type} (m : M A) (h : M A) : M A :=
  fun s =>
    match m s with
    | (Raise e, s') => if is_ValueError e then h s' else (Raise e, s')
    | r => r
    end.

Notation "'run' x <- m ; k" := (andthen m (fun x => k))
  (at level 10, x name, m at level 100, k at level 200,
   format "'[v' 'run'  x  <-  m ; '/' k ']'").

Definition getpass : M str :=
  fun s =>
    match tty s with
    | [] => (Raise EOFError, s)
    | answer :: rest => (Return answer, set_tty rest s)
    end.

Definition get_random_bytes : M bytes :=
  fun s => (Return (entropy s (draws s)), set_draws (S (draws s)) s).

Definition self_crypto : M AESEncryptor.t :=
  fun s =>
    match crypto s with
    | Some c => (Return c, s)
    | None => (Raise AttributeError, s)
    end.

(** Binding the [str] parameters of a statement encodes them. *)
Fixpoint bind_parameters (params : list str) : result (list bytes) :=
  match params with
  | [] => Return []
  | p :: params' =>
      do b <- str_encode p;
      do bs <- bind_parameters params';
      Return (b :: bs)
  end.

(** [self.cursor.execute(...)]: the statement runs on the table behind an
    open connection, after its parameters are bound. *)
Definition cursor_execute {A : Type} (params : list str)
    (statement : table -> A * table) : M A :=
  fun s =>
    match conn s with
    | None => (Raise AttributeError, s)
    | Some ClosedConnection => (Raise sqlite3_ProgrammingError, s)
    | Some Connected =>
        match bind_parameters params with
        | Raise e => (Raise e, s)
        | Return _ =>
            let '(a, t) := statement (default ∅ (db_file s)) in
            (Return a, set_db_file (Some t) s)
        end
    end.

Definition conn_commit : M unit :=
  fun s =>
    match conn s with
    | None => (Raise AttributeError, s)
    | Some ClosedConnection => (Raise sqlite3_ProgrammingError, s)
    | Some Connected => (Return tt, s)
    end.

Section Methods.
Context {L : Crypto}.

(** [AESEncryptor(password, salt)] with its random draw, made only
    when [salt] is [None] or empty. *)
Definition AESEncryptor_new (password : str) (salt : option bytes)
  : M AESEncryptor.t :=
  run random16 <- match salt with
                  | Some (_ :: _) => ret []
                  | _ => get_random_bytes
                  end;
  lift (AESEncryptor.__init__ random16 password salt).

Definition _test_password (password_to_test : str) : M unit :=
  run h <- gets hash_file;
  match h with
  | Some content =>
      let saved_hash := strip content in
      run pw <- lift (str_encode password_to_test);
      let password_to_test_hash := sha256_hexdigest pw in
      if decide (password_to_test_hash <> saved_hash)
      then raise (ValueError "Неверный пароль")
      else ret tt
  | None => raise FileNotFoundError
  end.

(** The [while True] loop of [_setup_crypto]: one round for each
    answer [getpass] still has, [EOFError] when it has none.
    [answers] is what the terminal holds when the loop is entered. *)
Fixpoint _setup_crypto_loop (answers : list str) (salt : bytes) : M unit :=
  fun s =>
    match answers with
    | [] => (Raise EOFError, set_tty [] s)
    | password :: rest =>
        except_ValueError
          (run c <- AESEncryptor_new password (Some salt);
           run _ <- modify (set_crypto (Some c));
           _test_password password)
          (_setup_crypto_loop rest salt)
          (set_tty rest s)
    end.

Definition _setup_crypto : M unit :=
  fun s =>
    match db_file s, salt_file s with
    | Some _, Some salt => _setup_crypto_loop (tty s) salt s
    | _, _ =>
        (run password <- getpass;
         run password2 <- getpass;
         if decide (password <> password2)
         then raise (ValueError "Пароли не совпадают")
         else
           run c <- AESEncryptor_new password None;
           run _ <- modify (set_crypto (Some c));
           run _ <- modify (set_salt_file (Some (AESEncryptor.salt c)));
           run _ <- modify (set_hash_file (Some []));
           run pw <- lift (str_encode password);
           modify (set_hash_file (Some (sha256_hexdigest pw)))) s
    end.

(** [sqlite3.connect(db_file)] followed by [self.conn.cursor()], where the
    database file can be opened or created: the failures of the file
    system are no part of this embedding. *)
Definition connect : M unit :=
  modify (fun s => set_conn (Some Connected)
                     (set_db_file (Some (default ∅ (db_file s))) s)).

(** [CREATE TABLE IF NOT EXISTS passwords (...)] and the commit. *)
Definition _init_db : M unit :=
  run _ <- cursor_execute [] (fun t => (tt, t));
  conn_commit.

Definition __init__ : M unit :=
  run _ <- modify (set_conn None);
  run _ <- modify (set_crypto None);
  run _ <- _setup_crypto;
  run _ <- connect;
  _init_db.

(** [save(self, service, login, password)] *)
Definition save (service login password : str) : M unit :=
  run c <- self_crypto;
  run nonce1 <- get_random_bytes;
  run enc_login <- lift (AESEncryptor.encrypt c nonce1 login);
  run nonce2 <- get_random_bytes;
  run enc_password <- lift (AESEncryptor.encrypt c nonce2 password);
  run _ <- cursor_execute [service; enc_login; enc_password]
             (fun t => (tt, <[service := (enc_login, enc_password)]> t));
  conn_commit.

(** [get(self, service)] *)
Definition get (service : str) : M (option (str * str)) :=
  run row <- cursor_execute [service] (fun t => (t !! service, t));
  match row with
  | Some (enc_login, enc_password) =>
      run c <- self_crypto;
      run login <- lift (AESEncryptor.decrypt c enc_login);
      run password <- lift (AESEncryptor.decrypt c enc_password);
      ret (Some (login, password))
  | None => ret None
  end.

(** [list_all(self)] *)
Definition list_all : M (list str) :=
  cursor_execute []
    (fun t => (merge_sort str_le (map_to_list t).*1, t)).

(** [delete(self, service)] *)
Definition delete (service : str) : M unit :=
  run _ <- cursor_execute [service] (fun t => (tt, base.delete service t));
  conn_commit.

(** [close(self)] *)
Definition close : M unit :=
  fun s =>
    match conn s with
    | None => (Raise AttributeError, s)
    | Some _ => (Return tt, set_conn (Some ClosedConnection) s)
    end.
End Methods.
End PasswordStorage.

(** ** [class LogStorage]

    The table [logs] has no key: it is the list of its rows, in the order
    they were inserted. [datetime.datetime.now().isoformat()] reads a
    clock, whose successive readings are an input. *)

Module LogStorage.
Record state : Type := mkState {
  conn : PasswordStorage.connection;
  rows : list (str * str * str);
  clock : nat -> str;
  ticks : nat
}.

(** [LogStorage(log_file)] on a file that holds [rows]: the connection is
    opened and the table created if it is not there. *)
Definition __init__ (rows : list (str * str * str)) (clock : nat -> str)
    (ticks : nat) : state :=
  mkState PasswordStorage.Connected rows clock ticks.

(** [log(self, action, service="")]: the arguments of [execute] are
    evaluated first, the clock is read; then the statement and the
    commit. *)
Definition log (action service : str) (s : state) : result unit * state :=
  let timestamp := clock s (ticks s) in
  let s := mkState (conn s) (rows s) (clock s) (S (ticks s)) in
  match conn s with
  | PasswordStorage.ClosedConnection => (Raise sqlite3_ProgrammingError, s)
  | PasswordStorage.Connected =>
      match PasswordStorage.bind_parameters [timestamp; action; service] with
      | Raise e => (Raise e, s)
      | Return _ =>
          (Return tt,
           mkState (conn s) (rows s ++ [(timestamp, action, service)])
                   (clock s) (ticks s))
      end
  end.

(** [close(self)] *)
Definition close (s : state) : result unit * state :=
  (Return tt, mkState PasswordStorage.ClosedConnection (rows s) (clock s) (ticks s)).
End LogStorage.

(** ** [class PasswordGenerator]

    The segmented and the readable generator. The numbers [secrets] draws
    are an input: the successive raw draws, each reduced below the bound
    asked for. Python integers are in [Z]. *)

(** An ASCII literal as a [str]. *)
Definition lit (s : string) : str := map ord (list_byte_of_string s).

Definition ascii_lowercase : str := lit "abcdefghijklmnopqrstuvwxyz".
Definition ascii_uppercase : str := lit "ABCDEFGHIJKLMNOPQRSTUVWXYZ".
Definition ascii_letters : str := ascii_lowercase ++ ascii_uppercase.
Definition digits : str := lit "0123456789".
Definition punctuation : str :=
  [33; 34; 35; 36; 37; 38; 39; 40; 41; 42; 43; 44; 45; 46; 47; 58; 59; 60; 61;
   62; 63; 64; 91; 92; 93; 94; 95; 96; 123; 124; 125; 126].

(** [c.isalpha()], [c.isdigit()], [c.islower()], [c.isupper()] and
    [s.capitalize()] on ASCII characters, the only ones these generators
    apply them to. *)
Definition isalpha (c : N) : bool :=
  ((65 <=? c) && (c <=? 90)) || ((97 <=? c) && (c <=? 122)).
Definition isdigit (c : N) : bool := (48 <=? c) && (c <=? 57).
Definition islower (c : N) : bool := (97 <=? c) && (c <=? 122).
Definition isupper (c : N) : bool := (65 <=? c) && (c <=? 90).
Definition upper (c : N) : N := if islower c then c - 32 else c.
Definition lower (c : N) : N := if isupper c then c + 32 else c.
Definition capitalize (s : str) : str :=
  match s with
  | [] => []
  | c :: s' => upper c :: map lower s'
  end.

(** [separator.join(parts)] *)
Fixpoint join (separator : str) (parts : list str) : str :=
  match parts with
  | [] => []
  | [p] => p
  | p :: parts' => p ++ separator ++ join separator parts'
  end.

(** [str(n)] and [f"{n}"] of an integer: its decimal digits. *)
Fixpoint uint_str (d : Decimal.uint) : str :=
  match d with
  | Decimal.Nil => []
  | Decimal.D0 d' => 48 :: uint_str d'
  | Decimal.D1 d' => 49 :: uint_str d'
  | Decimal.D2 d' => 50 :: uint_str d'
  | Decimal.D3 d' => 51 :: uint_str d'
  | Decimal.D4 d' => 52 :: uint_str d'
  | Decimal.D5 d' => 53 :: uint_str d'
  | Decimal.D6 d' => 54 :: uint_str d'
  | Decimal.D7 d' => 55 :: uint_str d'
  | Decimal.D8 d' => 56 :: uint_str d'
  | Decimal.D9 d' => 57 :: uint_str d'
  end.

Definition str_of_int (n : Z) : str :=
  match Z.to_int n with
  | Decimal.Pos d => uint_str d
  | Decimal.Neg d => 45 :: uint_str d
  end.

Module PasswordGenerator.
(** The exceptions of this class: [IndexError], and those of the log. *)
Inductive exception : Type :=
  | IndexError
  | Raised (e : exn).

Inductive outcome (A : Type) : Type :=
  | Ok (a : A)
  | Fail (e : exception).
Arguments Ok {A} a.
Arguments Fail {A} e.

Record state : Type := mkState {
  logs : option LogStorage.state;
  raw : nat -> nat;
  drawn : nat
}.

Definition G (A : Type) : Type := state -> outcome A * state.

Definition ret {A : Type} (a : A) : G A := fun s => (Ok a, s).
Definition fail {A : Type} (e : exception) : G A := fun s => (Fail e, s).
Definition andthen {A B : Type} (m : G A) (k : A -> G B) : G B :=
  fun s =>
    match m s with
    | (Ok a, s') => k a s'
    | (Fail e, s') => (Fail e, s')
    end.

Notation "'gen' x <- m ; k" := (andthen m (fun x => k))
  (at level 10, x name, m at level 100, k at level 200,
   format "'[v' 'gen'  x  <-  m ; '/' k ']'").

(** [secrets.randbelow(n)] *)
Definition randbelow (exclusive_upper_bound : Z) : G Z :=
  fun s =>
    if (exclusive_upper_bound <=? 0)%Z
    then (Fail (Raised (ValueError "Upper bound must be positive.")), s)
    else (Ok (Z.of_nat (raw s (drawn s)) mod exclusive_upper_bound)%Z,
          mkState (logs s) (raw s) (S (drawn s))).

(** [secrets.choice(seq)] *)
Definition choice {A : Type} (seq : list A) : G A :=
  match seq with
  | [] => fail IndexError
  | x :: _ =>
      gen i <- randbelow (Z.of_nat (length seq));
      ret (nth (Z.to_nat i) seq x)
  end.

(** [_log(self, message, tag='info')] *)
Definition _log (message tag : str) : G unit :=
  fun s =>
    match logs s with
    | None => (Ok tt, s)
    | Some l =>
        match LogStorage.log message tag l with
        | (Return _, l') => (Ok tt, mkState (Some l') (raw s) (drawn s))
        | (Raise e, l') => (Fail (Raised e), mkState (Some l') (raw s) (drawn s))
        end
    end.

(** [''.join(secrets.choice(charset) for _ in range(n))] *)
Fixpoint choices (n : nat) (charset : str) : G str :=
  match n with
  | O => ret []
  | S n' =>
      gen c <- choice charset;
      gen rest <- choices n' charset;
      ret (c :: rest)
  end.

(** The body of the loop over the segments, [n] segments to go. *)
Fixpoint segments (n : nat) (segment_length : Z) (charset : str) : G (list str) :=
  match n with
  | O => ret []
  | S n' =>
      gen segment <- choices (Z.to_nat segment_length) charset;
      gen segment <-
        (if negb (existsb isalpha segment)
         then
           gen pos <- randbelow segment_length;
           gen letter <- choice ascii_letters;
           ret (take (Z.to_nat pos) segment ++ [letter]
                ++ drop (Z.to_nat (pos + 1)) segment)
         else ret segment);
      gen rest <- segments n' segment_length charset;
      ret (segment :: rest)
  end.

(** [generate_segmented_password(self, segment_length=6,
    segments_amount=3, separator='-', include_special=False)] *)
Definition generate_segmented_password (segment_length segments_amount : Z)
    (separator : str) (include_special : bool) : G str :=
  let charset :=
    if include_special then ascii_letters ++ digits ++ punctuation
    else ascii_letters ++ digits in
  gen password_parts <- segments (Z.to_nat segments_amount) segment_length charset;
  let password := join separator password_parts in
  gen _ <- _log (lit "Generated segmented password: " ++ str_of_int segment_length
                 ++ lit "x" ++ str_of_int segments_amount
                 ++ lit " with separator " ++ [34] ++ separator ++ [34])
                (lit "generator");
  ret password.

(** The loop over the syllables, [n] syllables to go. *)
Fixpoint syllables (n : nat) (password : str) : G str :=
  match n with
  | O => ret password
  | S n' =>
      let vowels := lit "aeiou" in
      let consonants := lit "bcdfghjklmnpqrstvwxyz" in
      gen first <- choice [true; true; true; false];
      gen password <-
        (if first : bool
         then gen c <- choice consonants; ret (password ++ [c])
         else ret password);
      gen v <- choice vowels;
      let password := password ++ [v] in
      gen second <- choice [true; false];
      gen password <-
        (if second : bool
         then gen c <- choice consonants; ret (password ++ [c])
         else ret password);
      syllables n' password
  end.

(** [generate_readable_password(self, syllable_count=4)] *)
Definition generate_readable_password (syllable_count : Z) : G str :=
  gen password <- syllables (Z.to_nat syllable_count) [];
  gen d <- randbelow 10;
  let password := capitalize password ++ str_of_int d in
  gen _ <- _log (lit "Generated readable password with "
                 ++ str_of_int syllable_count ++ lit " syllables")
                (lit "generator");
  ret password.
End PasswordGenerator.

(** ** Vocabulary of the properties *)

(** A [str] of Unicode scalar values: what the specification calls a
    UTF-8 string, and what [str.encode()] accepts. *)
Definition scalar_str (s : str) : Prop := Forall (fun c => is_scalar c = true) s.

Definition encodable (p : str) : Prop := exists b, str_encode p = Return b.

Definition ascii_bytes (b : bytes) : Prop := Forall (fun x => ord x < 128) b.

(** The bytes [decrypt] works on: the input encoded and Base64-decoded. *)
Definition decoded (e : str) : result bytes :=
  do raw <- str_encode e; b64decode raw.

(** The encoder with the low bits of the last data character, which carry
    no data, set from [k] instead of zero: no output of [b2a_base64]
    unless those bits of [k] are zero, but input the decoder accepts. *)
Fixpoint b2a_base64_bits (k : N) (data : bytes) : bytes :=
  match data with
  | [] => []
  | [x] =>
      [b2a (ord x / 4); b2a (ord x mod 4 * 16 + k mod 16); BASE64_PAD; BASE64_PAD]
  | [x; y] =>
      [b2a (ord x / 4); b2a (ord x mod 4 * 16 + ord y / 16);
       b2a (ord y mod 16 * 4 + k mod 4); BASE64_PAD]
  | x :: y :: z :: rest =>
      [b2a (ord x / 4); b2a (ord x mod 4 * 16 + ord y / 16);
       b2a (ord y mod 16 * 4 + ord z / 64); b2a (ord z mod 64)]
      ++ b2a_base64_bits k rest
  end.

(** Where the last data character of the encoding of [data] stands. *)
Fixpoint last_data_index (data : bytes) : nat :=
  match data with
  | [] => 0
  | [_] => 1
  | [_; _] => 2
  | _ :: _ :: _ :: rest => 4 + last_data_index rest
  end.

(** A byte the decoder skips: not in the alphabet and not the padding. *)
Definition skipped (c : byte) : Prop :=
  a2b c = None /\ byte_eqb c BASE64_PAD = false.

Section Vocabulary.
Context {L : Crypto}.

(** The bytes [encrypt] joins for the plaintext bytes [pt]: nonce, tag and
    ciphertext; and the string it returns. *)
Definition encrypted_bytes (self : AESEncryptor.t) (nonce pt : bytes) : bytes :=
  let c := gcm_crypt (AESEncryptor.key self) nonce pt in
  nonce ++ gcm_tag (AESEncryptor.key self) nonce c ++ c.

Definition encoded_field (self : AESEncryptor.t) (nonce pt : bytes) : str :=
  map ord (b64encode (encrypted_bytes self nonce pt)).

(** The tag field of [data] is the tag of its nonce and ciphertext fields
    under the key of [self]. *)
Definition passes_tag_check (self : AESEncryptor.t) (data : bytes) : Prop :=
  take 16 (drop 16 data)
  = gcm_tag (AESEncryptor.key self) (take 16 data) (drop 32 data).

Definition same_nonce_and_ciphertext (data data' : bytes) : Prop :=
  take 16 data = take 16 data' /\ drop 32 data = drop 32 data'.

(** [data'] is accepted by the tag check without having the nonce and the
    ciphertext of [data]: a forgery of the tag. *)
Definition tag_forgery (self : AESEncryptor.t) (data data' : bytes) : Prop :=
  ~ same_nonce_and_ciphertext data data' /\ passes_tag_check self data'.
End Vocabulary.

(** An unlocked vault: the key is derived and the connection is open on
    the table [t]. *)
Definition unlocked (s : PasswordStorage.state) (c : AESEncryptor.t)
    (t : PasswordStorage.table) : Prop :=
  PasswordStorage.crypto s = Some c
  /\ PasswordStorage.conn s = Some PasswordStorage.Connected
  /\ PasswordStorage.db_file s = Some t.


(** The alphabetical order, that of a dictionary, on names written in
    ASCII letters: the case of a letter counts for nothing, so the names
    are compared in lower case. *)
Definition alphabetical_le (a b : str) : Prop :=
  str_le (map lower a) (map lower b).

(** A name written in lowercase ASCII letters. *)
Definition lowercase (a : str) : Prop := Forall (fun c => islower c = true) a.

(** ** Vocabulary of the further properties *)

(** A character of Base64 text: one of the alphabet, or the padding. *)
Definition base64_char (c : N) : Prop :=
  In c (map ord table_b2a_base64) \/ c = ord BASE64_PAD.

Module PasswordStorageParts.
Import PasswordStorage.

(** The three files are the same in two states. *)
Definition same_files (s s' : state) : Prop :=
  db_file s' = db_file s /\ salt_file s' = salt_file s
  /\ hash_file s' = hash_file s.

Section Parts.
Context {L : Crypto}.

(** The [AESEncryptor] of an encoded passphrase and a salt. *)
Definition derived (pw salt : bytes) : AESEncryptor.t :=
  {| AESEncryptor.salt := salt; AESEncryptor.key := PBKDF2 pw salt |}.

(** The answer [p] passes the check against the content [h] of the hash
    file; the answer [w] does not. *)
Definition accepted (h : str) (p : str) (pw : bytes) : Prop :=
  str_encode p = Return pw /\ sha256_hexdigest pw = strip h.

Definition rejected (h : str) (w : str) : Prop :=
  forall pw, str_encode w = Return pw -> sha256_hexdigest pw <> strip h.

(** One round of the loop of [_setup_crypto], with the answer taken. *)
Definition round (password : str) (salt : bytes) : M unit :=
  run c <- AESEncryptor_new password (Some salt);
  run _ <- modify (set_crypto (Some c));
  _test_password password.

(** The new-vault branch of [_setup_crypto], taken when the database file
    or the salt file is missing. *)
Definition new_vault : M unit :=
  run password <- getpass;
  run password2 <- getpass;
  if decide (password <> password2)
  then raise (ValueError "Пароли не совпадают")
  else
    run c <- AESEncryptor_new password None;
    run _ <- modify (set_crypto (Some c));
    run _ <- modify (set_salt_file (Some (AESEncryptor.salt c)));
    run _ <- modify (set_hash_file (Some []));
    run pw <- lift (str_encode password);
    modify (set_hash_file (Some (sha256_hexdigest pw))).
End Parts.
End PasswordStorageParts.

(** The events of a list logged one after the other. *)
Fixpoint log_all (events : list (str * str)) (s : LogStorage.state) :
    result unit * LogStorage.state :=
  match events with
  | [] => (Return tt, s)
  | (action, service) :: events' =>
      match LogStorage.log action service s with
      | (Return _, s') => log_all events' s'
      | (Raise e, s') => (Raise e, s')
      end
  end.

(** The row that [log] writes for the [i]-th event after the state [s]. *)
Definition logged (s : LogStorage.state) (i : nat) (event : str * str) :
    str * str * str :=
  (LogStorage.clock s (LogStorage.ticks s + i), event.1, event.2).

(** A generator goes from [s] to [s']: it draws numbers, and leaves the
    log as it is. *)
Definition draws_only (s s' : PasswordGenerator.state) : Prop :=
  PasswordGenerator.logs s' = PasswordGenerator.logs s
  /\ PasswordGenerator.raw s' = PasswordGenerator.raw s
  /\ (PasswordGenerator.drawn s <= PasswordGenerator.drawn s')%nat.

(** A segment of [n] characters of the alphabet, one at least a letter. *)
Definition segment_ok (include_special : bool) (n : nat) (segment : str) : Prop :=
  length segment = n
  /\ Forall (fun c => c ∈ ascii_letters ++ digits
                      \/ include_special = true /\ c ∈ punctuation) segment
  /\ Exists (fun c => isalpha c = true) segment.

(** ** A small instance of the library

    An instance of [Crypto] with none of the strength of the real
    primitives, on which the definitions above can be run: a checksum
    stands for the block cipher, the key derivation and the hash. *)

Definition checksum (data : bytes) : N :=
  fold_left (fun acc b => (acc * 31 + ord b + 1) mod 65521) data 7.

Definition hexdigit (d : N) : N := if d <? 10 then 48 + d else 87 + d.

Definition sample_crypto : Crypto := {|
  PBKDF2 password salt :=
    map (fun i => chr (checksum (password ++ salt) + 5 * N.of_nat i)) (seq 0 32);
  sha256_hexdigest data :=
    map (fun i => hexdigit ((checksum data * (N.of_nat i + 1)) mod 16)) (seq 0 64);
  gcm_keystream key nonce i := chr (checksum (key ++ nonce) + 7 * N.of_nat i);
  gcm_tag key nonce c :=
    map (fun i => chr (checksum (key ++ nonce ++ c) * (N.of_nat i + 3))) (seq 0 16)
|}.

Definition sample_salt : bytes := map (fun i => chr (N.of_nat i)) (seq 1 16).

Definition sample_nonce : bytes := map (fun i => chr (3 * N.of_nat i)) (seq 0 16).

Definition sample_nonce' : bytes := map (fun i => chr (5 * N.of_nat i + 1)) (seq 0 16).

(** The passphrase "p@ss" and the [AESEncryptor] of it and [sample_salt]. *)
Definition sample_passphrase : str := [112; 64; 115; 115].

Definition sample_encryptor : AESEncryptor.t :=
  {| AESEncryptor.salt := sample_salt;
     AESEncryptor.key :=
       @PBKDF2 sample_crypto (list_byte_of_string "p@ss") sample_salt |}.

Definition sample_entropy (i : nat) : bytes :=
  match i with
  | O => sample_nonce
  | 1%nat => sample_nonce'
  | _ => sample_salt
  end.

(** The service names "github" and "x", and some logins and passwords. *)
Definition github : str := [103; 105; 116; 104; 117; 98].
Definition alice : str := [97; 108; 105; 99; 101].
Definition secret1 : str := [115; 101; 99; 114; 101; 116; 49].
Definition bob : str := [98; 111; 98].
Definition secret2 : str := [115; 101; 99; 114; 101; 116; 50].

(** A table with the row of "github", whose fields were encrypted with
    [sample_encryptor]. *)
Definition sample_table : PasswordStorage.table :=
  {[ github :=
       (@encoded_field sample_crypto sample_encryptor sample_nonce
          (list_byte_of_string "alice"),
        @encoded_field sample_crypto sample_encryptor sample_nonce'
          (list_byte_of_string "secret1")) ]}.

(** An unlocked vault on that table. *)
Definition sample_vault : PasswordStorage.state :=
  {| PasswordStorage.crypto := Some sample_encryptor;
     PasswordStorage.conn := Some PasswordStorage.Connected;
     PasswordStorage.db_file := Some sample_table;
     PasswordStorage.salt_file := Some sample_salt;
     PasswordStorage.hash_file :=
       Some (@sha256_hexdigest sample_crypto (list_byte_of_string "p@ss"));
     PasswordStorage.tty := [];
     PasswordStorage.entropy := sample_entropy;
     PasswordStorage.draws := 0 |}.

(** What [encrypt] returns for "hi" under [sample_encryptor] and
    [sample_nonce]: "AAMGCQwPEhUYGx4hJCcqLUVcc4qhuM/m/RQrQllwh57e1A==". *)
Definition sample_field : str :=
  [65; 65; 77; 71; 67; 81; 119; 80; 69; 104; 85; 89; 71; 120; 52; 104;
   74; 67; 99; 113; 76; 85; 86; 99; 99; 52; 113; 104; 117; 77; 47; 109;
   47; 82; 81; 114; 81; 108; 108; 119; 104; 53; 55; 101; 49; 65; 61; 61].

(** The same vault on disk before it is opened, "p@ss" typed at the
    prompt: once with its hash file missing, once with its salt file
    missing. *)
Definition vault_without_hash_file : PasswordStorage.state :=
  {| PasswordStorage.crypto := None;
     PasswordStorage.conn := None;
     PasswordStorage.db_file := Some sample_table;
     PasswordStorage.salt_file := Some sample_salt;
     PasswordStorage.hash_file := None;
     PasswordStorage.tty := [sample_passphrase];
     PasswordStorage.entropy := sample_entropy;
     PasswordStorage.draws := 0 |}.

Definition vault_without_salt_file : PasswordStorage.state :=
  {| PasswordStorage.crypto := None;
     PasswordStorage.conn := None;
     PasswordStorage.db_file := Some sample_table;
     PasswordStorage.salt_file := None;
     PasswordStorage.hash_file :=
       Some (@sha256_hexdigest sample_crypto (list_byte_of_string "old"));
     PasswordStorage.tty := [sample_passphrase; sample_passphrase];
     PasswordStorage.entropy := sample_entropy;
     PasswordStorage.draws := 0 |}.

(** A place with no vault yet, where [draw] is what the random source
    gives and [answers] are typed. *)
Definition no_vault (draw : bytes) (answers : list str) : PasswordStorage.state :=
  {| PasswordStorage.crypto := None;
     PasswordStorage.conn := None;
     PasswordStorage.db_file := None;
     PasswordStorage.salt_file := None;
     PasswordStorage.hash_file := None;
     PasswordStorage.tty := answers;
     PasswordStorage.entropy := fun _ => draw;
     PasswordStorage.draws := 0 |}.

(** The state a computation leaves. *)
Definition after {A : Type} (m : PasswordStorage.M A) (s : PasswordStorage.state)
  : PasswordStorage.state := (m s).2.

(** A new vault is created with "p@ss"; ("github", "alice", "secret1") is
    saved; the vault is closed. *)
Definition closed_vault : PasswordStorage.state :=
  after PasswordStorage.close
    (after (@PasswordStorage.save sample_crypto github alice secret1)
       (after (@PasswordStorage.__init__ sample_crypto)
          (no_vault sample_salt [sample_passphrase; sample_passphrase]))).

(** The service names "Zebra" and "apple"; the unlocked vault in which
    "apple" and then "Zebra" were saved; the one with rows for "b", "a"
    and "c", inserted in that order. *)
Definition Zebra : str := [90; 101; 98; 114; 97].
Definition apple : str := [97; 112; 112; 108; 101].

Definition apple_Zebra_vault : PasswordStorage.state :=
  after (@PasswordStorage.save sample_crypto Zebra alice secret1)
    (after (@PasswordStorage.save sample_crypto apple alice secret1)
       (PasswordStorage.set_db_file (Some ∅) sample_vault)).

Definition b_a_c_table : PasswordStorage.table :=
  <[[99] := (sample_field, sample_field)]>
    (<[[97] := (sample_field, sample_field)]>
       (<[[98] := (sample_field, sample_field)]> ∅)).

Definition b_a_c_vault : PasswordStorage.state :=
  PasswordStorage.set_db_file (Some b_a_c_table) sample_vault.

(** The passphrase "wrong", and the [AESEncryptor] of it and the same
    salt. *)
Definition wrong : str := [119; 114; 111; 110; 103].

Definition other_encryptor : AESEncryptor.t :=
  {| AESEncryptor.salt := sample_salt;
     AESEncryptor.key :=
       @PBKDF2 sample_crypto (list_byte_of_string "wrong") sample_salt |}.

(** A clock that reads "2026-01-01T00:00:00.0", "2026-01-01T00:00:00.1"
    and so on; an empty log opened on it; generators with no logger, with
    that log, and with that log closed. *)
Definition sample_clock (i : nat) : str :=
  lit "2026-01-01T00:00:00." ++ str_of_int (Z.of_nat i).

Definition sample_log : LogStorage.state := LogStorage.__init__ [] sample_clock 0.

Definition sample_draws (i : nat) : nat := (7 * i + 3)%nat.

Definition sample_generator : PasswordGenerator.state :=
  PasswordGenerator.mkState None sample_draws 0.

Definition logging_generator : PasswordGenerator.state :=
  PasswordGenerator.mkState (Some sample_log) sample_draws 0.

Definition closed_log_generator : PasswordGenerator.state :=
  PasswordGenerator.mkState (Some (LogStorage.close sample_log).2) sample_draws 0.

(** * Properties *)

Ltac div_lia := zify; Z.to_euclidean_division_equations; lia.

Ltac case_ltb :=
  match goal with
  | |- context [N.ltb ?a ?b] =>
      let E := fresh "E" in
      destruct (N.ltb a b) eqn:E;
      [apply N.ltb_lt in E | apply N.ltb_ge in E]; try (exfalso; div_lia)
  | |- context [N.leb ?a ?b] =>
      let E := fresh "E" in
      destruct (N.leb a b) eqn:E;
      [apply N.leb_le in E | apply N.leb_gt in E]; try (exfalso; div_lia)
  end.

(** ** Bytes *)

Lemma ord_lt (b : byte) : ord b < 256.
Proof. unfold ord. pose proof (Byte.to_N_bounded b). lia. Qed.

Lemma ord_chr (n : N) : n < 256 -> ord (chr n) = n.
Proof.
  intros Hn. unfold ord, chr. rewrite N.mod_small by exact Hn.
  destruct (Byte.of_N n) as [b|] eqn:E.
  - now apply Byte.to_of_N.
  - apply Byte.of_N_None_iff in E. lia.
Qed.

Lemma chr_ord (b : byte) : chr (ord b) = b.
Proof.
  unfold chr, ord. rewrite N.mod_small by apply ord_lt.
  now rewrite Byte.of_to_N.
Qed.

Lemma ord_inj (a b : byte) : ord a = ord b -> a = b.
Proof. intros H. rewrite <- (chr_ord a), <- (chr_ord b). now f_equal. Qed.

Lemma map_ord_inj (a b : bytes) : map ord a = map ord b -> a = b.
Proof.
  revert b. induction a as [|x a IH]; intros [|y b]; cbn [map];
    try discriminate; [reflexivity|].
  intros [= H1 H2]. f_equal; [now apply ord_inj | now apply IH].
Qed.

Lemma lxor_lt_256 (a b : N) : a < 256 -> b < 256 -> N.lxor a b < 256.
Proof.
  intros Ha Hb.
  destruct (N.eq_dec (N.lxor a b) 0) as [->|Hx]; [lia|].
  change 256 with (2 ^ 8). apply N.log2_lt_pow2; [lia|].
  pose proof (N.log2_lxor a b) as Hl.
  assert (N.log2 a < 8).
  { destruct (N.eq_dec a 0) as [->|]; [cbn; lia|].
    apply N.log2_lt_pow2; [lia|exact Ha]. }
  assert (N.log2 b < 8).
  { destruct (N.eq_dec b 0) as [->|]; [cbn; lia|].
    apply N.log2_lt_pow2; [lia|exact Hb]. }
  lia.
Qed.

Lemma ord_byte_xor (a b : byte) : ord (byte_xor a b) = N.lxor (ord a) (ord b).
Proof. unfold byte_xor. apply ord_chr, lxor_lt_256; apply ord_lt. Qed.

Lemma byte_xor_involutive (a k : byte) : byte_xor (byte_xor a k) k = a.
Proof.
  apply ord_inj. rewrite !ord_byte_xor.
  now rewrite N.lxor_assoc, N.lxor_nilpotent, N.lxor_0_r.
Qed.

(** ** Results *)

Lemma rmap_rmap {A B C : Type} (f : A -> B) (g : B -> C) (m : result A) :
  rmap g (rmap f m) = rmap (fun a => g (f a)) m.
Proof. now destruct m. Qed.

Lemma rmap_raises {A B : Type} (f : A -> B) (m : result A) (e : exn) :
  rmap f m = Raise e -> m = Raise e.
Proof. destruct m; cbn; congruence. Qed.

(** ** Base64 *)

Lemma lt_64_cases (v : N) : v < 64 -> In v (map N.of_nat (seq 0 64)).
Proof.
  intros Hv. apply in_map_iff. exists (N.to_nat v). split; [lia|].
  apply in_seq. lia.
Qed.

(** The two tables are inverse to each other on the 64 values. *)
Lemma a2b_b2a (v : N) : v < 64 -> a2b (b2a v) = Some v.
Proof.
  intros Hv.
  assert (H : forallb (fun v => bool_decide (a2b (b2a v) = Some v))
                      (map N.of_nat (seq 0 64)) = true)
    by (vm_compute; reflexivity).
  rewrite forallb_forall in H. apply lt_64_cases, H in Hv.
  now apply bool_decide_eq_true in Hv.
Qed.

Lemma b2a_inj (v w : N) : v < 64 -> w < 64 -> b2a v = b2a w -> v = w.
Proof.
  intros Hv Hw H. apply a2b_b2a in Hv, Hw. rewrite H in Hv. congruence.
Qed.

Lemma b2a_overflow (v : N) : 64 <= v -> b2a v = x00.
Proof.
  intros Hv. unfold b2a. apply nth_overflow.
  change (length table_b2a_base64) with 64%nat. lia.
Qed.

Lemma b2a_not_pad (v : N) : byte_eqb (b2a v) BASE64_PAD = false.
Proof.
  destruct (N.lt_ge_cases v 64) as [Hv|Hv].
  - assert (H : forallb (fun v => negb (byte_eqb (b2a v) BASE64_PAD))
                        (map N.of_nat (seq 0 64)) = true)
      by (vm_compute; reflexivity).
    rewrite forallb_forall in H. apply lt_64_cases, H in Hv.
    now apply negb_true_iff in Hv.
  - now rewrite b2a_overflow.
Qed.

Lemma b2a_ascii (v : N) : ord (b2a v) < 128.
Proof.
  destruct (N.lt_ge_cases v 64) as [Hv|Hv].
  - assert (H : forallb (fun v => ord (b2a v) <? 128)
                        (map N.of_nat (seq 0 64)) = true)
      by (vm_compute; reflexivity).
    rewrite forallb_forall in H. apply lt_64_cases, H in Hv.
    now apply N.ltb_lt in Hv.
  - now rewrite b2a_overflow.
Qed.

(** The loop on a data character, at each position of a quad. *)
Lemma a2b_loop_data (q : nat) (lc : N) (p : nat) (v : N) (rest : bytes) :
  v < 64 ->
  a2b_loop q lc p (b2a v :: rest) =
    match q with
    | 0%nat => a2b_loop 1 v 0 rest
    | 1%nat => rmap (cons (chr (lc * 4 + v / 16))) (a2b_loop 2 (v mod 16) 0 rest)
    | 2%nat => rmap (cons (chr (lc * 16 + v / 4))) (a2b_loop 3 (v mod 4) 0 rest)
    | _ => rmap (cons (chr (lc * 64 + v))) (a2b_loop 0 0 0 rest)
    end.
Proof.
  intros Hv. cbn [a2b_loop]. now rewrite b2a_not_pad, a2b_b2a.
Qed.

Lemma a2b_loop_skipped (junk : bytes) (q : nat) (lc : N) (p : nat) (rest : bytes) :
  Forall skipped junk ->
  a2b_loop q lc p (junk ++ rest) = a2b_loop q lc p rest.
Proof.
  induction 1 as [|c junk [Hc Hp] _ IH]; [reflexivity|].
  cbn [app a2b_loop]. now rewrite Hp, Hc.
Qed.

(** A full group of three bytes decodes to itself. *)
Lemma a2b_loop_group (x y z : byte) (lc : N) (rest : bytes) :
  a2b_loop 0 lc 0
    (b2a (ord x / 4) :: b2a (ord x mod 4 * 16 + ord y / 16)
     :: b2a (ord y mod 16 * 4 + ord z / 64) :: b2a (ord z mod 64) :: rest)
  = rmap (fun r => x :: y :: z :: r) (a2b_loop 0 0 0 rest).
Proof.
  pose proof (ord_lt x). pose proof (ord_lt y). pose proof (ord_lt z).
  do 4 (rewrite a2b_loop_data by div_lia).
  rewrite !rmap_rmap. f_equal.
  replace (ord x / 4 * 4 + (ord x mod 4 * 16 + ord y / 16) / 16)
    with (ord x) by div_lia.
  replace ((ord x mod 4 * 16 + ord y / 16) mod 16 * 16
           + (ord y mod 16 * 4 + ord z / 64) / 4) with (ord y) by div_lia.
  replace ((ord y mod 16 * 4 + ord z / 64) mod 4 * 64 + ord z mod 64)
    with (ord z) by div_lia.
  now rewrite !chr_ord.
Qed.

Lemma list_ind3 {A : Type} (P : list A -> Prop) :
  P [] -> (forall x, P [x]) -> (forall x y, P [x; y]) ->
  (forall x y z l, P l -> P (x :: y :: z :: l)) ->
  forall l, P l.
Proof.
  intros H0 H1 H2 H3.
  fix IH 1. intros [|x [|y [|z l]]];
    [apply H0 | apply H1 | apply H2 | apply H3, IH].
Qed.

(** The decoder gives the data back from any encoding of them, canonical
    or not in its last bits, and whatever skipped bytes follow it. *)
Lemma a2b_loop_b2a_base64_bits (k : N) (data junk : bytes) (lc : N) :
  Forall skipped junk ->
  a2b_loop 0 lc 0 (b2a_base64_bits k data ++ junk) = Return data.
Proof.
  intros Hj. revert lc.
  induction data as [|x|x y|x y z l IH] using list_ind3; intros lc.
  - cbn [b2a_base64_bits app]. rewrite <- (app_nil_r junk).
    now rewrite a2b_loop_skipped.
  - pose proof (ord_lt x). cbn [b2a_base64_bits app].
    do 2 (rewrite a2b_loop_data by div_lia).
    cbn. replace (ord x / 4 * 4 + (ord x mod 4 * 16 + k mod 16) / 16)
      with (ord x) by div_lia.
    now rewrite chr_ord.
  - pose proof (ord_lt x). pose proof (ord_lt y). cbn [b2a_base64_bits app].
    do 3 (rewrite a2b_loop_data by div_lia).
    cbn.
    replace (ord x / 4 * 4 + (ord x mod 4 * 16 + ord y / 16) / 16)
      with (ord x) by div_lia.
    replace ((ord x mod 4 * 16 + ord y / 16) mod 16 * 16
             + (ord y mod 16 * 4 + k mod 4) / 4) with (ord y) by div_lia.
    now rewrite !chr_ord.
  - cbn [b2a_base64_bits app]. rewrite a2b_loop_group, IH. reflexivity.
Qed.

Lemma b2a_base64_bits_0 (data : bytes) : b2a_base64_bits 0 data = b2a_base64 data.
Proof.
  induction data as [|x|x y|x y z l IH] using list_ind3;
    cbn [b2a_base64_bits b2a_base64].
  - reflexivity.
  - now rewrite N.add_0_r.
  - now rewrite N.add_0_r.
  - now rewrite IH.
Qed.

Theorem b64decode_b64encode (data : bytes) : b64decode (b64encode data) = Return data.
Proof.
  unfold b64decode, a2b_base64, b64encode.
  rewrite <- (b2a_base64_bits_0 data), <- (app_nil_r (b2a_base64_bits 0 data)).
  now apply a2b_loop_b2a_base64_bits.
Qed.

(** The two encodings differ in the last data character and nowhere else,
    and they do differ there when the data are no whole groups. *)
Lemma b2a_base64_bits_insert (k : N) (data : bytes) :
  exists c,
    b2a_base64_bits k data = <[last_data_index data := c]> (b2a_base64 data).
Proof.
  induction data as [|x|x y|x y z l [c IH]] using list_ind3;
    cbn [b2a_base64_bits b2a_base64 last_data_index].
  - now exists x00.
  - eexists. reflexivity.
  - eexists. reflexivity.
  - exists c. rewrite IH. reflexivity.
Qed.

Lemma b2a_base64_bits_ne (data : bytes) :
  (length data mod 3 <> 0)%nat -> b2a_base64_bits 1 data <> b2a_base64 data.
Proof.
  induction data as [|x|x y|x y z l IH] using list_ind3;
    cbn [b2a_base64_bits b2a_base64 length].
  - intros H. now exfalso.
  - intros _ [= H]. pose proof (ord_lt x). apply b2a_inj in H; div_lia.
  - intros _ [= H]. pose proof (ord_lt y). apply b2a_inj in H; div_lia.
  - intros H [= E]. apply IH; [|exact E].
    change (S (S (S (length l)))) with (3 + length l)%nat in H.
    intros H0. apply H. rewrite <- Nat.Div0.add_mod_idemp_r, H0. reflexivity.
Qed.

Lemma b2a_base64_bits_ascii (k : N) (data : bytes) :
  ascii_bytes (b2a_base64_bits k data).
Proof.
  induction data as [|x|x y|x y z l IH] using list_ind3;
    cbn [b2a_base64_bits app];
    repeat (apply Forall_cons; split);
    try apply b2a_ascii; try reflexivity; try apply Forall_nil; auto.
Qed.

Lemma b2a_base64_ascii (data : bytes) : ascii_bytes (b2a_base64 data).
Proof. rewrite <- b2a_base64_bits_0. apply b2a_base64_bits_ascii. Qed.

Lemma a2b_loop_raises (s : bytes) (q : nat) (lc : N) (p : nat) (e : exn) :
  a2b_loop q lc p s = Raise e -> e = binascii_Error.
Proof.
  revert q lc p. induction s as [|c s IH]; intros q lc p; cbn [a2b_loop].
  - case_decide; congruence.
  - repeat case_match; try congruence; try apply IH;
      intros ?%rmap_raises; eapply IH; eassumption.
Qed.

Lemma b64decode_raises (s : bytes) (e : exn) :
  b64decode s = Raise e -> e = binascii_Error.
Proof. apply a2b_loop_raises. Qed.

(** ** UTF-8 *)

Lemma is_cont_chr (n : N) : n < 64 -> is_cont (chr (0x80 + n)) = true.
Proof.
  intros Hn. unfold is_cont. rewrite ord_chr by lia.
  apply andb_true_iff. split; [apply N.leb_le | apply N.ltb_lt]; lia.
Qed.

Lemma cont_chr (n : N) : n < 64 -> cont (chr (0x80 + n)) = n.
Proof. intros Hn. unfold cont. rewrite ord_chr by lia. lia. Qed.

(** Decoding reads back the code point an encoded character stands for. *)
Lemma bytes_decode_utf8_char (c : N) (b rest : bytes) :
  utf8_char c = Return b ->
  bytes_decode (b ++ rest) = rmap (cons c) (bytes_decode rest).
Proof.
  unfold utf8_char. intros H.
  destruct (c <? 0x80) eqn:E1; [apply N.ltb_lt in E1 | apply N.ltb_ge in E1].
  { injection H as <-. cbn [app bytes_decode]. rewrite ord_chr by lia.
    case_ltb. reflexivity. }
  destruct (c <? 0x800) eqn:E2; [apply N.ltb_lt in E2 | apply N.ltb_ge in E2].
  { injection H as <-. cbn [app bytes_decode].
    rewrite ord_chr by div_lia.
    rewrite is_cont_chr, cont_chr by div_lia.
    repeat case_ltb. do 2 f_equal. div_lia. }
  destruct (c <? 0x10000) eqn:E3; [apply N.ltb_lt in E3 | apply N.ltb_ge in E3].
  { destruct (is_surrogate c) eqn:Es; [discriminate|].
    injection H as <-. cbn [app bytes_decode].
    rewrite ord_chr by div_lia.
    rewrite !is_cont_chr, !cont_chr by div_lia.
    repeat case_ltb.
    replace ((0xE0 + c / 4096 - 0xE0) * 4096 + (c / 64) mod 64 * 64 + c mod 64)
      with c by div_lia.
    rewrite Es. reflexivity. }
  destruct (c <? 0x110000) eqn:E4; [apply N.ltb_lt in E4 | discriminate].
  injection H as <-. cbn [app bytes_decode].
  rewrite ord_chr by div_lia.
  rewrite !is_cont_chr, !cont_chr by div_lia.
  repeat case_ltb.
  replace ((0xF0 + c / 262144 - 0xF0) * 262144 + (c / 4096) mod 64 * 4096
           + (c / 64) mod 64 * 64 + c mod 64) with c by div_lia.
  reflexivity.
Qed.

(** [s.encode().decode() == s] whenever [s.encode()] returns. *)
Lemma bytes_decode_str_encode (s : str) (b : bytes) :
  str_encode s = Return b -> bytes_decode b = Return s.
Proof.
  revert b. induction s as [|c s IH]; intros b; cbn [str_encode].
  - now intros [= <-].
  - destruct (utf8_char c) as [bc|] eqn:Ec; [|discriminate]. cbn [bind].
    destruct (str_encode s) as [bs|] eqn:Es; [|discriminate]. cbn [bind].
    intros [= <-]. rewrite (bytes_decode_utf8_char _ _ _ Ec), (IH _ eq_refl).
    reflexivity.
Qed.

Lemma utf8_char_scalar (c : N) :
  is_scalar c = true -> exists b, utf8_char c = Return b.
Proof.
  unfold is_scalar, utf8_char. intros [Hc Hs%negb_true_iff]%andb_true_iff.
  apply N.leb_le in Hc. rewrite Hs.
  repeat case_ltb; eauto.
Qed.

Lemma str_encode_scalar (s : str) : scalar_str s -> encodable s.
Proof.
  unfold encodable.
  induction 1 as [|c s Hc _ [bs IH]]; cbn [str_encode]; [eauto|].
  destruct (utf8_char_scalar c Hc) as [bc ->]. rewrite IH. cbn. eauto.
Qed.

(** [str.encode()] raises nothing but [UnicodeEncodeError], and only on a
    string that is not one of scalar values. *)
Lemma str_encode_raises (s : str) (e : exn) :
  str_encode s = Raise e -> e = UnicodeEncodeError /\ ~ scalar_str s.
Proof.
  intros H. split.
  - revert H. induction s as [|c s IH]; cbn [str_encode]; [discriminate|].
    destruct (utf8_char c) eqn:Ec; cbn [bind].
    + destruct (str_encode s); cbn [bind]; [discriminate|].
      intros [= ->]. now apply IH.
    + intros [= <-]. unfold utf8_char in Ec.
      repeat (destruct (_ <? _) in Ec; try discriminate);
        try destruct (is_surrogate c); congruence.
  - intros [b Hb]%str_encode_scalar. congruence.
Qed.

Lemma bytes_decode_raises (b : bytes) (e : exn) :
  bytes_decode b = Raise e -> e = UnicodeDecodeError.
Proof.
  revert e. induction b as [b IH] using (induction_ltof1 _ (@length byte)).
  unfold ltof in IH. intros e.
  destruct b as [|b0 r0]; cbn [bytes_decode]; [discriminate|].
  repeat case_match; try congruence;
    intros ?%rmap_raises; (eapply IH; [|eassumption]); subst; cbn [length]; lia.
Qed.

(** Bytes below 0x80 are their own encoding. *)
Lemma bytes_decode_ascii (b : bytes) :
  ascii_bytes b -> bytes_decode b = Return (map ord b).
Proof.
  induction 1 as [|x b Hx _ IH]; [reflexivity|].
  cbn [bytes_decode map]. rewrite IH. case_ltb. reflexivity.
Qed.

Lemma str_encode_ascii (b : bytes) :
  ascii_bytes b -> str_encode (map ord b) = Return b.
Proof.
  induction 1 as [|x b Hx _ IH]; [reflexivity|].
  cbn [str_encode map]. rewrite IH. unfold utf8_char. case_ltb.
  cbn. now rewrite chr_ord.
Qed.

Lemma decoded_raises (e : str) (ex : exn) :
  decoded e = Raise ex -> ex = UnicodeEncodeError \/ ex = binascii_Error.
Proof.
  unfold decoded. destruct (str_encode e) as [raw|ex'] eqn:E; cbn [bind].
  - intros H%b64decode_raises. now right.
  - intros [= <-]. left. now apply str_encode_raises in E.
Qed.

(** What the decoder makes of an encoding, canonical or not, with skipped
    ASCII bytes after it. *)
Lemma decoded_b2a_base64_bits (k : N) (data junk : bytes) :
  Forall skipped junk -> ascii_bytes junk ->
  decoded (map ord (b2a_base64_bits k data ++ junk)) = Return data.
Proof.
  intros Hs Ha. unfold decoded. rewrite str_encode_ascii.
  - cbn [bind]. now apply a2b_loop_b2a_base64_bits.
  - apply Forall_app. split; [apply b2a_base64_bits_ascii | exact Ha].
Qed.

Lemma decoded_b64encode (data : bytes) :
  decoded (map ord (b64encode data)) = Return data.
Proof.
  unfold b64encode.
  rewrite <- b2a_base64_bits_0, <- (app_nil_r (b2a_base64_bits 0 data)).
  apply decoded_b2a_base64_bits; constructor.
Qed.

(** ** [AESEncryptor] *)

Lemma imap_involutive {A : Type} (f : nat -> A -> A) (l : list A) :
  (forall i x, f i (f i x) = x) -> imap f (imap f l) = l.
Proof.
  revert f. induction l as [|x l IH]; intros f Hf; [reflexivity|].
  cbn [imap]. rewrite Hf. f_equal. apply IH. intros i y. apply Hf.
Qed.

(** The three fields of a joined byte string, and the string from them. *)
Lemma split_fields (nonce tag c : bytes) :
  length nonce = 16%nat -> length tag = 16%nat ->
  take 16 (nonce ++ tag ++ c) = nonce
  /\ take 16 (drop 16 (nonce ++ tag ++ c)) = tag
  /\ drop 32 (nonce ++ tag ++ c) = c.
Proof.
  intros Hn Ht. repeat split.
  - now apply take_app_length'.
  - rewrite drop_app_length' by easy. now apply take_app_length'.
  - rewrite app_assoc. apply drop_app_length'. rewrite length_app. lia.
Qed.

Lemma fields_join (data : bytes) :
  take 16 data ++ take 16 (drop 16 data) ++ drop 32 data = data.
Proof.
  rewrite <- (take_drop 16 data) at 4. f_equal.
  rewrite <- (take_drop 16 (drop 16 data)) at 2. f_equal.
  now rewrite drop_drop.
Qed.

Section AESEncryptorFacts.
Context {L : Crypto}.

Lemma gcm_crypt_involutive (key nonce data : bytes) :
  gcm_crypt key nonce (gcm_crypt key nonce data) = data.
Proof.
  unfold gcm_crypt. apply imap_involutive. intros i x.
  apply byte_xor_involutive.
Qed.

Lemma gcm_crypt_length (key nonce data : bytes) :
  length (gcm_crypt key nonce data) = length data.
Proof. unfold gcm_crypt. apply length_imap. Qed.

Lemma AES_new_16 (key nonce : bytes) :
  length nonce = 16%nat -> AES_new key nonce = Return (key, nonce).
Proof. destruct nonce; [discriminate|reflexivity]. Qed.

Lemma encrypted_bytes_fields (self : AESEncryptor.t) (nonce pt : bytes) :
  gcm_tag_16 L -> length nonce = 16%nat ->
  let c := gcm_crypt (AESEncryptor.key self) nonce pt in
  take 16 (encrypted_bytes self nonce pt) = nonce
  /\ take 16 (drop 16 (encrypted_bytes self nonce pt))
     = gcm_tag (AESEncryptor.key self) nonce c
  /\ drop 32 (encrypted_bytes self nonce pt) = c.
Proof. intros Ht Hn c. apply split_fields; [exact Hn | apply Ht]. Qed.

(** [decrypt] as a function of the decoded bytes. *)
Lemma decrypt_unfold (self : AESEncryptor.t) (e : str) :
  AESEncryptor.decrypt self e =
    do data <- decoded e;
    do cipher <- AES_new (AESEncryptor.key self) (take 16 data);
    do plaintext <- decrypt_and_verify cipher (drop 32 data)
                      (take 16 (drop 16 data));
    bytes_decode plaintext.
Proof.
  unfold AESEncryptor.decrypt, decoded. now destruct (str_encode e).
Qed.

(** What [encrypt] returns, and when. *)
Lemma encrypt_eq (self : AESEncryptor.t) (nonce : bytes) (s : str) (pt : bytes) :
  length nonce = 16%nat -> str_encode s = Return pt ->
  AESEncryptor.encrypt self nonce s = Return (encoded_field self nonce pt).
Proof.
  intros Hn Hs. unfold AESEncryptor.encrypt.
  rewrite (AES_new_16 _ _ Hn), Hs. cbn [bind encrypt_and_digest fst snd].
  apply bytes_decode_ascii, b2a_base64_ascii.
Qed.

Lemma encrypt_inv (self : AESEncryptor.t) (nonce : bytes) (s e : str) :
  length nonce = 16%nat ->
  AESEncryptor.encrypt self nonce s = Return e ->
  exists pt, str_encode s = Return pt /\ e = encoded_field self nonce pt.
Proof.
  intros Hn He. destruct (str_encode s) as [pt|ex] eqn:Es.
  - exists pt. split; [reflexivity|].
    rewrite (encrypt_eq self nonce s pt Hn Es) in He. congruence.
  - unfold AESEncryptor.encrypt in He.
    rewrite (AES_new_16 _ _ Hn), Es in He. discriminate.
Qed.

(** Any string that decodes to the bytes [encrypt] joined is decrypted to
    the plaintext bytes. *)
Lemma decrypt_encrypted_bytes (self : AESEncryptor.t) (nonce pt : bytes) (e : str) :
  gcm_tag_16 L -> length nonce = 16%nat ->
  decoded e = Return (encrypted_bytes self nonce pt) ->
  AESEncryptor.decrypt self e = bytes_decode pt.
Proof.
  intros Ht Hn Hd. rewrite decrypt_unfold, Hd. cbn [bind].
  destruct (encrypted_bytes_fields self nonce pt Ht Hn) as (-> & -> & ->).
  rewrite (AES_new_16 _ _ Hn). cbn [bind].
  unfold decrypt_and_verify. cbn [fst snd].
  rewrite decide_True by reflexivity. cbn [bind].
  now rewrite gcm_crypt_involutive.
Qed.

Lemma decoded_encoded_field (self : AESEncryptor.t) (nonce pt : bytes) :
  decoded (encoded_field self nonce pt) = Return (encrypted_bytes self nonce pt).
Proof. apply decoded_b64encode. Qed.

Lemma decrypt_encoded_field (self : AESEncryptor.t) (nonce pt : bytes) :
  gcm_tag_16 L -> length nonce = 16%nat ->
  AESEncryptor.decrypt self (encoded_field self nonce pt) = bytes_decode pt.
Proof.
  intros Ht Hn. apply (decrypt_encrypted_bytes self nonce pt _ Ht Hn).
  apply decoded_encoded_field.
Qed.

(** C1: for every key (the key of any [AESEncryptor]), every 16-byte
    nonce drawn by [encrypt] and every string [s] of Unicode scalar
    values, the empty string included, [encrypt] returns an encoded
    string and [decrypt] under the same key returns [s] from it. *)
Theorem decrypt_encrypt_roundtrip (self : AESEncryptor.t) (nonce : bytes) (s : str) :
  gcm_tag_16 L -> length nonce = 16%nat -> scalar_str s ->
  exists e, AESEncryptor.encrypt self nonce s = Return e
            /\ AESEncryptor.decrypt self e = Return s.
Proof.
  intros Ht Hn Hs. destruct (str_encode_scalar s Hs) as [pt Hpt].
  exists (encoded_field self nonce pt). split.
  - now apply encrypt_eq.
  - rewrite decrypt_encoded_field by assumption.
    now apply bytes_decode_str_encode.
Qed.

(** Whatever string [e'] is given to [decrypt] in place of an encrypted
    [s]: a plaintext is returned only when [e'] decodes to the very bytes
    [encrypt] joined, and then it is [s], or when the decoded bytes are a
    forgery; a plaintext that fails to decode comes from a forgery too. *)
Lemma decrypt_any (self : AESEncryptor.t) (nonce pt : bytes) (s e' : str) :
  gcm_tag_16 L -> length nonce = 16%nat -> str_encode s = Return pt ->
  match AESEncryptor.decrypt self e' with
  | Return s' =>
      (s' = s /\ decoded e' = Return (encrypted_bytes self nonce pt))
      \/ exists data', decoded e' = Return data'
           /\ tag_forgery self (encrypted_bytes self nonce pt) data'
  | Raise UnicodeDecodeError =>
      exists data', decoded e' = Return data'
        /\ tag_forgery self (encrypted_bytes self nonce pt) data'
  | Raise ex =>
      ex = UnicodeEncodeError \/ ex = binascii_Error
      \/ ex = ValueError "MAC check failed"
      \/ ex = ValueError "Nonce cannot be empty"
  end.
Proof.
  intros Ht Hn Hs.
  destruct (encrypted_bytes_fields self nonce pt Ht Hn) as (F1 & F2 & F3).
  rewrite decrypt_unfold.
  destruct (decoded e') as [data|ex] eqn:Ed; cbn [bind].
  2:{ destruct (decoded_raises _ _ Ed) as [-> | ->]; auto. }
  destruct (take 16 data) as [|n0 nonce'] eqn:En; cbn [AES_new bind]; [auto 6|].
  rewrite <- En. unfold decrypt_and_verify. cbn [fst snd].
  case_decide as Hp; cbn [bind]; [|auto 6].
  destruct (decide (same_nonce_and_ciphertext (encrypted_bytes self nonce pt) data))
    as [[H1 H2]|Hne].
  - rewrite F1 in H1. rewrite F3 in H2. rewrite <- H1, <- H2 in Hp |- *.
    rewrite gcm_crypt_involutive, (bytes_decode_str_encode _ _ Hs).
    left. split; [reflexivity|]. f_equal.
    rewrite <- (fields_join data), <- H1, <- H2, Hp. reflexivity.
  - assert (tag_forgery self (encrypted_bytes self nonce pt) data)
      by (split; [exact Hne | exact Hp]).
    destruct (bytes_decode _) as [s'|ex] eqn:Eb; [eauto|].
    apply bytes_decode_raises in Eb as ->. eauto.
Qed.

(** C2, as the code has it: after the character at any position of what
    [encrypt] returned is replaced, [decrypt] under the same key raises
    [binascii.Error] or [ValueError] (or [UnicodeEncodeError], for a
    character that cannot be encoded), or it returns the original
    plaintext, which it does only when the changed string still decodes
    to the same bytes. It returns another plaintext, or fails to decode
    one, only when the changed bytes are a forgery of the tag. *)
Theorem decrypt_modified_char (self : AESEncryptor.t) (nonce : bytes)
    (s e : str) (i : nat) (x : N) :
  gcm_tag_16 L -> length nonce = 16%nat ->
  AESEncryptor.encrypt self nonce s = Return e ->
  exists data, decoded e = Return data /\
    match AESEncryptor.decrypt self (<[i:=x]> e) with
    | Return s' =>
        (s' = s /\ decoded (<[i:=x]> e) = Return data)
        \/ exists data', decoded (<[i:=x]> e) = Return data'
             /\ tag_forgery self data data'
    | Raise UnicodeDecodeError =>
        exists data', decoded (<[i:=x]> e) = Return data'
          /\ tag_forgery self data data'
    | Raise ex =>
        ex = UnicodeEncodeError \/ ex = binascii_Error
        \/ ex = ValueError "MAC check failed"
        \/ ex = ValueError "Nonce cannot be empty"
    end.
Proof.
  intros Ht Hn He.
  destruct (encrypt_inv self nonce s e Hn He) as (pt & Hs & ->).
  exists (encrypted_bytes self nonce pt).
  split; [apply decoded_encoded_field|].
  exact (decrypt_any self nonce pt s _ Ht Hn Hs).
Qed.

(** A change confined to the tag field is always detected. *)
Lemma decrypt_modified_tag (self : AESEncryptor.t) (nonce pt tag' : bytes) :
  length nonce = 16%nat -> length tag' = 16%nat ->
  tag' <> gcm_tag (AESEncryptor.key self) nonce
            (gcm_crypt (AESEncryptor.key self) nonce pt) ->
  AESEncryptor.decrypt self
    (map ord (b64encode (nonce ++ tag'
                         ++ gcm_crypt (AESEncryptor.key self) nonce pt)))
  = Raise (ValueError "MAC check failed").
Proof.
  intros Hn Ht Hne. rewrite decrypt_unfold, decoded_b64encode. cbn [bind].
  destruct (split_fields nonce tag'
              (gcm_crypt (AESEncryptor.key self) nonce pt) Hn Ht)
    as (-> & -> & ->).
  rewrite (AES_new_16 _ _ Hn). cbn [bind].
  unfold decrypt_and_verify. cbn [fst snd].
  now rewrite decide_False by exact Hne.
Qed.

(** An encoding of the encrypted bytes that is not the canonical one, or
    one with skipped characters after it, is decrypted like the canonical
    one. *)
Lemma decrypt_noncanonical (self : AESEncryptor.t) (nonce pt : bytes) (s : str)
    (k : N) (junk : bytes) :
  gcm_tag_16 L -> length nonce = 16%nat -> str_encode s = Return pt ->
  Forall skipped junk -> ascii_bytes junk ->
  AESEncryptor.decrypt self
    (map ord (b2a_base64_bits k (encrypted_bytes self nonce pt) ++ junk))
  = Return s.
Proof.
  intros Ht Hn Hs Hj Ha.
  rewrite (decrypt_encrypted_bytes self nonce pt) by
    (try assumption; now apply decoded_b2a_base64_bits).
  now apply bytes_decode_str_encode.
Qed.

(** X8: unless the encrypted bytes are whole groups of three, one character of
    what [encrypt] returned can be replaced by another without [decrypt]
    noticing: the last data character, in its low bits. *)
Lemma decrypt_padding_bits (self : AESEncryptor.t) (nonce : bytes) (s e : str) :
  gcm_tag_16 L -> length nonce = 16%nat ->
  AESEncryptor.encrypt self nonce s = Return e ->
  (forall pt, str_encode s = Return pt -> (length pt mod 3 <> 1)%nat) ->
  exists i x,
    (i < length e)%nat /\ e !! i <> Some x
    /\ AESEncryptor.decrypt self (<[i:=x]> e) = Return s.
Proof.
  intros Ht Hn He Hlen.
  destruct (encrypt_inv self nonce s e Hn He) as (pt & Hs & ->).
  specialize (Hlen pt Hs).
  set (data := encrypted_bytes self nonce pt).
  destruct (b2a_base64_bits_insert 1 data) as [c Hc].
  assert (Hne : b2a_base64_bits 1 data <> b2a_base64 data).
  { apply b2a_base64_bits_ne. unfold data, encrypted_bytes.
    rewrite !length_app, Hn, Ht, gcm_crypt_length.
    change (16 + (16 + length pt))%nat with (10 * 3 + (2 + length pt))%nat.
    rewrite Nat.add_comm, Nat.Div0.mod_add.
    intros H0. apply Hlen.
    rewrite <- (Nat.Div0.mod_add (length pt) 1 3).
    replace (length pt + 1 * 3)%nat with (1 + (2 + length pt))%nat by lia.
    rewrite <- Nat.Div0.add_mod_idemp_r, H0. reflexivity. }
  exists (last_data_index data), (ord c).
  assert (Hins : <[last_data_index data := ord c]> (encoded_field self nonce pt)
                 = map ord (b2a_base64_bits 1 data)).
  { unfold encoded_field, b64encode. fold data.
    rewrite Hc. symmetry. apply (list_fmap_insert ord). }
  assert (Hdiff : <[last_data_index data := ord c]> (encoded_field self nonce pt)
                  <> encoded_field self nonce pt).
  { rewrite Hins. unfold encoded_field, b64encode. fold data.
    intros Heq. apply Hne. now apply map_ord_inj. }
  repeat split.
  - destruct (Nat.lt_ge_cases (last_data_index data)
                (length (encoded_field self nonce pt))) as [Hlt|Hge]; [exact Hlt|].
    exfalso. apply Hdiff. now apply list_insert_ge.
  - intros Hx. apply Hdiff. now apply list_insert_id.
  - rewrite Hins, <- (app_nil_r (b2a_base64_bits 1 data)).
    apply decrypt_noncanonical; auto; constructor.
Qed.

(** C4, as the code has it: [decrypt] raises [binascii.Error] when the
    Base64 decoder rejects the input; an input that decodes to fewer than
    32 bytes makes it raise [ValueError], as a failed tag check does, and
    not [binascii.Error]. *)
Theorem decrypt_malformed (self : AESEncryptor.t) (e : str) (raw : bytes) :
  gcm_tag_16 L ->
  str_encode e = Return raw ->
  (forall ex, b64decode raw = Raise ex ->
              AESEncryptor.decrypt self e = Raise binascii_Error)
  /\ (forall data, b64decode raw = Return data -> (length data < 32)%nat ->
        AESEncryptor.decrypt self e =
          Raise (ValueError (match data with
                             | [] => "Nonce cannot be empty"
                             | _ => "MAC check failed"
                             end))).
Proof.
  intros Ht He. unfold AESEncryptor.decrypt. rewrite He. cbn [bind]. split.
  - intros ex Hd. rewrite Hd. cbn [bind].
    now rewrite (b64decode_raises _ _ Hd).
  - intros data -> Hlen. cbn [bind].
    destruct data as [|b data]; [reflexivity|].
    assert (AES_new (AESEncryptor.key self) (take 16 (b :: data))
            = Return (AESEncryptor.key self, take 16 (b :: data))) as ->
      by reflexivity.
    cbn [bind]. unfold decrypt_and_verify. cbn [fst snd].
    rewrite decide_False; [reflexivity|].
    intros Heq. apply (f_equal length) in Heq.
    rewrite Ht, length_take, length_drop in Heq. lia.
Qed.
End AESEncryptorFacts.

(** ** The order of service names *)

Lemma str_leb_total (a b : str) : str_leb a b = true \/ str_leb b a = true.
Proof.
  revert b. induction a as [|x a IH]; intros [|y b]; cbn [str_leb]; auto.
  destruct (N.ltb_spec x y), (N.ltb_spec y x); auto.
Qed.

Lemma str_leb_trans (a b c : str) :
  str_leb a b = true -> str_leb b c = true -> str_leb a c = true.
Proof.
  revert b c. induction a as [|x a IH]; intros [|y b] [|z c]; cbn [str_leb];
    try congruence.
  destruct (N.ltb_spec x y), (N.ltb_spec y x), (N.ltb_spec y z),
           (N.ltb_spec z y), (N.ltb_spec x z), (N.ltb_spec z x);
    try congruence; try (intros; exfalso; lia); eauto.
Qed.

Lemma str_leb_antisym (a b : str) :
  str_leb a b = true -> str_leb b a = true -> a = b.
Proof.
  revert b. induction a as [|x a IH]; intros [|y b]; cbn [str_leb];
    try congruence.
  destruct (N.ltb_spec x y), (N.ltb_spec y x); try congruence;
    try (intros; exfalso; lia).
  intros H1 H2. f_equal; [lia | now apply IH].
Qed.

#[global] Instance str_le_total : Total str_le.
Proof. intros a b. apply str_leb_total. Qed.

#[global] Instance str_le_trans : Transitive str_le.
Proof. intros a b c. apply str_leb_trans. Qed.

#[global] Instance str_le_antisym : AntiSymm (=) str_le.
Proof. intros a b. apply str_leb_antisym. Qed.

Lemma map_lower_lowercase (a : str) : lowercase a -> map lower a = a.
Proof.
  induction 1 as [|c a Hc _ IH]; [reflexivity|].
  cbn [map]. rewrite IH. f_equal.
  unfold lower, isupper. unfold islower in Hc.
  apply andb_true_iff in Hc as [H1 H2]. apply N.leb_le in H1, H2.
  destruct (65 <=? c) eqn:E1; [|reflexivity]. cbn [andb].
  destruct (c <=? 90) eqn:E2; [|reflexivity]. apply N.leb_le in E2. lia.
Qed.

(** Among names in lowercase letters the order of the code points is the
    alphabetical one. *)
Lemma Sorted_alphabetical (names : list str) :
  Forall lowercase names -> Sorted str_le names -> Sorted alphabetical_le names.
Proof.
  intros Hl Hs. induction Hs as [|a names _ IH Hd]; [constructor|].
  apply Forall_cons in Hl as [Ha Hl]. constructor; [now apply IH|].
  destruct Hd as [|b names Hab]; constructor.
  apply Forall_cons in Hl as [Hb _]. unfold alphabetical_le.
  now rewrite (map_lower_lowercase a Ha), (map_lower_lowercase b Hb).
Qed.

(** ** The vault *)

Module PasswordStorageFacts.
Import PasswordStorage.

Lemma set_db_file_same (s : state) (t : table) :
  db_file s = Some t -> set_db_file (Some t) s = s.
Proof. destruct s. cbn. now intros ->. Qed.

Lemma bind_parameters_ok (params : list str) :
  Forall encodable params -> exists bs, bind_parameters params = Return bs.
Proof.
  induction 1 as [|p params [b Hb] _ [bs IH]]; cbn [bind_parameters]; [eauto|].
  rewrite Hb, IH. cbn. eauto.
Qed.

Lemma cursor_execute_ok {A : Type} (params : list str)
    (statement : table -> A * table) (s : state) (t : table) :
  conn s = Some Connected -> db_file s = Some t -> Forall encodable params ->
  cursor_execute params statement s
  = (Return (statement t).1, set_db_file (Some (statement t).2) s).
Proof.
  intros Hc Hd Hp. unfold cursor_execute. rewrite Hc, Hd.
  destruct (bind_parameters_ok params Hp) as [bs ->]. cbn [from_option id].
  now destruct (statement t).
Qed.

(** X30: on a vault with an open connection [list_all] returns the
    service names of the table, each once, in the ascending order of
    [ORDER BY service], which is [str_le]: the order of the code points,
    not the alphabetical one, with which it agrees when the names are
    written in lowercase letters. The state is left as it was. The list
    depends on the set of names alone, not on the rows or the order of
    the saves, and nothing is decrypted: no key is asked for (the state
    may hold none) and [list_all] takes no cryptographic library. *)
Theorem list_all_sorted (s : state) (t : table) :
  conn s = Some Connected -> db_file s = Some t ->
  exists names,
    list_all s = (Return names, s)
    /\ Sorted str_le names
    /\ NoDup names
    /\ (forall service, service ∈ names <-> is_Some (t !! service))
    /\ (forall s' t', conn s' = Some Connected -> db_file s' = Some t' ->
          dom t' = dom t -> list_all s' = (Return names, s'))
    /\ (Forall lowercase names -> Sorted alphabetical_le names).
Proof.
  intros Hc Hd.
  assert (Hrun : forall s' t', conn s' = Some Connected -> db_file s' = Some t' ->
            list_all s' = (Return (merge_sort str_le (map_to_list t').*1), s')).
  { intros s' t' Hc' Hd'. unfold list_all.
    rewrite (cursor_execute_ok _ _ s' t' Hc' Hd') by constructor.
    cbn [fst snd]. now rewrite set_db_file_same. }
  exists (merge_sort str_le (map_to_list t).*1).
  assert (Hperm : forall t' : table,
            merge_sort str_le (map_to_list t').*1 ≡ₚ (map_to_list t').*1)
    by (intros; apply merge_sort_Permutation).
  assert (Hmem : forall (t' : table) service,
            service ∈ (map_to_list t').*1 <-> is_Some (t' !! service)).
  { intros t' service. rewrite list_elem_of_fmap. split.
    - intros ([k v] & -> & Hin). apply elem_of_map_to_list in Hin. eauto.
    - intros [[l p] Hl]. exists (service, (l, p)). split; [reflexivity|].
      now apply elem_of_map_to_list. }
  split; [now apply Hrun|]. split; [apply Sorted_merge_sort, _|].
  split; [rewrite Hperm; apply NoDup_fst_map_to_list|].
  split; [intros service; rewrite Hperm; apply Hmem|].
  split.
  { intros s' t' Hc' Hd' Hdom. rewrite (Hrun s' t' Hc' Hd'). f_equal. f_equal.
    apply (Sorted_unique str_le); try apply Sorted_merge_sort; try apply _.
    rewrite !Hperm. apply NoDup_Permutation; try apply NoDup_fst_map_to_list.
    intros service. rewrite !Hmem, <- !elem_of_dom. now rewrite Hdom. }
  intros Hl. apply Sorted_alphabetical; [exact Hl|]. apply Sorted_merge_sort, _.
Qed.

Lemma ascii_encodable (b : bytes) : ascii_bytes b -> encodable (map ord b).
Proof. intros H. exists b. now apply str_encode_ascii. Qed.

Section Methods.
Context {L : Crypto}.

Lemma get_run (s : state) (c : AESEncryptor.t) (t : table) (service : str) :
  unlocked s c t -> encodable service ->
  get service s =
    (match t !! service with
     | Some (enc_login, enc_password) =>
         do login <- AESEncryptor.decrypt c enc_login;
         do password <- AESEncryptor.decrypt c enc_password;
         Return (Some (login, password))
     | None => Return None
     end, s).
Proof.
  intros (Hk & Hc & Hd) Hs. unfold get, andthen.
  rewrite (cursor_execute_ok _ _ s t Hc Hd) by (repeat constructor; exact Hs).
  cbn [fst snd]. rewrite (set_db_file_same s t Hd).
  destruct (t !! service) as [[el ep]|]; [|reflexivity].
  unfold self_crypto, lift, ret. rewrite Hk.
  destruct (AESEncryptor.decrypt c el); cbn [bind]; [|reflexivity].
  now destruct (AESEncryptor.decrypt c ep).
Qed.

(** C7: in an unlocked vault, [get] of a service name that is not in
    the table returns [None] and raises nothing, and it returns [None]
    for no other name; for a name that is in the table it decrypts the
    stored login, then the stored password, and returns the pair (or
    raises what [decrypt] raised). When the stored fields are what
    [encrypt] returned for a login and a password under the key of the
    vault, as they are after [save], the pair is that login and that
    password. The state is left as it was. *)
Theorem get_absent_or_pair (s : state) (c : AESEncryptor.t) (t : table)
    (service : str) :
  unlocked s c t -> scalar_str service ->
  (t !! service = None <-> get service s = (Return None, s))
  /\ (forall enc_login enc_password,
        t !! service = Some (enc_login, enc_password) ->
        get service s =
          (do login <- AESEncryptor.decrypt c enc_login;
           do password <- AESEncryptor.decrypt c enc_password;
           Return (Some (login, password)), s)
        /\ (forall nonce1 nonce2 login password,
              gcm_tag_16 L ->
              length nonce1 = 16%nat -> length nonce2 = 16%nat ->
              AESEncryptor.encrypt c nonce1 login = Return enc_login ->
              AESEncryptor.encrypt c nonce2 password = Return enc_password ->
              get service s = (Return (Some (login, password)), s))).
Proof.
  intros Hu Hs. rewrite (get_run s c t service Hu (str_encode_scalar _ Hs)).
  split.
  - split; [now intros ->|].
    destruct (t !! service) as [[el ep]|]; [|reflexivity].
    destruct (AESEncryptor.decrypt c el); cbn [bind]; [|discriminate].
    destruct (AESEncryptor.decrypt c ep); discriminate.
  - intros el ep ->. split; [reflexivity|].
    intros nonce1 nonce2 login password Ht H1 H2 El Ep.
    destruct (encrypt_inv c nonce1 login el H1 El) as (bl & Hbl & ->).
    destruct (encrypt_inv c nonce2 password ep H2 Ep) as (bp & Hbp & ->).
    rewrite !decrypt_encoded_field by assumption.
    now rewrite (bytes_decode_str_encode login bl Hbl),
      (bytes_decode_str_encode password bp Hbp).
Qed.

Lemma save_run (s : state) (c : AESEncryptor.t) (t : table)
    (service login password : str) (bl bp : bytes) :
  unlocked s c t ->
  length (entropy s (draws s)) = 16%nat ->
  length (entropy s (S (draws s))) = 16%nat ->
  encodable service ->
  str_encode login = Return bl -> str_encode password = Return bp ->
  save service login password s =
    (Return tt,
     set_db_file
       (Some (<[service := (encoded_field c (entropy s (draws s)) bl,
                            encoded_field c (entropy s (S (draws s))) bp)]> t))
       (set_draws (S (S (draws s))) s)).
Proof.
  intros (Hk & Hc & Hd) H1 H2 Hs Hl Hp.
  unfold save, andthen, self_crypto, get_random_bytes, lift. rewrite Hk.
  cbn [entropy draws set_draws].
  rewrite (encrypt_eq c _ login bl H1 Hl), (encrypt_eq c _ password bp H2 Hp).
  erewrite cursor_execute_ok; [|exact Hc|exact Hd|].
  2:{ repeat constructor; [exact Hs| |];
      apply ascii_encodable, b2a_base64_ascii. }
  cbn [fst snd]. unfold conn_commit. cbn [conn set_db_file set_draws].
  now rewrite Hc.
Qed.

Lemma filter_none {A : Type} (P : A -> Prop) `{forall x, Decision (P x)}
    (l : list A) :
  Forall (fun x => ~ P x) l -> filter P l = [].
Proof.
  induction 1 as [|x l Hx _ IH]; [reflexivity|].
  rewrite filter_cons, decide_False by exact Hx. exact IH.
Qed.

Lemma one_row (t : table) (service : str) (row : str * str) :
  t !! service = Some row ->
  length (filter (fun r => r.1 = service) (map_to_list t)) = 1%nat.
Proof.
  intros Hrow. pose proof (NoDup_fst_map_to_list t) as Hnd.
  apply elem_of_map_to_list in Hrow.
  induction (map_to_list t) as [|[k v] l IH]; [inversion Hrow|].
  rewrite fmap_cons in Hnd. apply NoDup_cons in Hnd as [Hk Hnd].
  cbn [fst] in Hk. rewrite filter_cons. cbn [fst].
  apply elem_of_cons in Hrow as [Heq|Hin].
  - injection Heq as <- <-. rewrite decide_True by reflexivity.
    cbn [length]. f_equal.
    apply length_zero_iff_nil, filter_none, Forall_forall.
    intros [k' v'] Hin. cbn [fst]. intros ->. apply Hk.
    apply list_elem_of_fmap. now exists (service, v').
  - rewrite decide_False; [now apply IH|].
    intros ->. apply Hk, list_elem_of_fmap. now exists (service, row).
Qed.

(** C6: in an unlocked vault, a [save] for a service followed by a
    second [save] for the same service both succeed; afterwards the
    table holds one row for the service and as many rows as after the
    first [save], and [get] returns the login and password of the
    second [save]. *)
Theorem save_twice_get (s : state) (c : AESEncryptor.t) (t : table)
    (service l1 p1 l2 p2 : str) :
  gcm_tag_16 L -> unlocked s c t ->
  (forall i, length (entropy s i) = 16%nat) ->
  scalar_str service ->
  scalar_str l1 -> scalar_str p1 -> scalar_str l2 -> scalar_str p2 ->
  exists s1 s2 t1 t2,
    save service l1 p1 s = (Return tt, s1)
    /\ save service l2 p2 s1 = (Return tt, s2)
    /\ db_file s1 = Some t1 /\ db_file s2 = Some t2
    /\ length (filter (fun r => r.1 = service) (map_to_list t2)) = 1%nat
    /\ size t2 = size t1
    /\ get service s2 = (Return (Some (l2, p2)), s2).
Proof.
  intros Ht (Hk & Hc & Hd) He Hs Hl1 Hp1 Hl2 Hp2.
  destruct (str_encode_scalar _ Hl1) as [bl1 El1].
  destruct (str_encode_scalar _ Hp1) as [bp1 Ep1].
  destruct (str_encode_scalar _ Hl2) as [bl2 El2].
  destruct (str_encode_scalar _ Hp2) as [bp2 Ep2].
  pose proof (str_encode_scalar _ Hs) as Hs'.
  pose proof (save_run s c t service l1 p1 bl1 bp1
                (conj Hk (conj Hc Hd)) (He _) (He _) Hs' El1 Ep1) as R1.
  set (t1 := <[service := _]> t) in R1.
  set (s1 := set_db_file (Some t1) _) in R1.
  assert (Hu1 : unlocked s1 c t1) by (repeat split; cbn; assumption).
  pose proof (save_run s1 c t1 service l2 p2 bl2 bp2
                Hu1 (He _) (He _) Hs' El2 Ep2) as R2.
  set (t2 := <[service := _]> t1) in R2.
  set (s2 := set_db_file (Some t2) _) in R2.
  assert (Hu2 : unlocked s2 c t2) by (repeat split; cbn; assumption).
  exists s1, s2, t1, t2.
  split; [exact R1|]. split; [exact R2|].
  split; [reflexivity|]. split; [reflexivity|].
  split; [eapply one_row; apply lookup_insert_eq|].
  split.
  { unfold t2. rewrite map_size_insert. unfold t1 at 1.
    now rewrite lookup_insert_eq. }
  rewrite (get_run s2 c t2 service Hu2 Hs').
  unfold t2 at 1. rewrite lookup_insert_eq.
  rewrite !decrypt_encoded_field by (try exact Ht; exact (He _)).
  now rewrite (bytes_decode_str_encode _ _ El2), (bytes_decode_str_encode _ _ Ep2).
Qed.

(** C10: [save] encrypts the login and then the password before it
    touches the table: when either [encrypt] call raises, [save]
    raises the same exception and the three files, the table among
    them, are what they were before the call. *)
Theorem save_encrypt_raises (s : state) (c : AESEncryptor.t)
    (service login password : str) (e : exn) :
  crypto s = Some c ->
  AESEncryptor.encrypt c (entropy s (draws s)) login = Raise e
  \/ (exists enc_login,
        AESEncryptor.encrypt c (entropy s (draws s)) login = Return enc_login
        /\ AESEncryptor.encrypt c (entropy s (S (draws s))) password = Raise e) ->
  exists s',
    save service login password s = (Raise e, s')
    /\ db_file s' = db_file s
    /\ salt_file s' = salt_file s
    /\ hash_file s' = hash_file s.
Proof.
  intros Hk H. unfold save, andthen, self_crypto, get_random_bytes, lift.
  rewrite Hk. cbn [entropy draws set_draws].
  destruct H as [-> | (x & -> & ->)]; eexists; (split; [reflexivity|]);
    now repeat split.
Qed.

(** C5, as the code has it: [close] on a vault that has a connection
    returns with the connection closed, so that [list_all] and [get]
    raise [sqlite3.ProgrammingError] from then on; [self.crypto], and
    the derived key in it, is left as it was. *)
Theorem close_keeps_key (s : state) :
  conn s <> None ->
  exists s',
    close s = (Return tt, s')
    /\ conn s' = Some ClosedConnection
    /\ crypto s' = crypto s
    /\ list_all s' = (Raise sqlite3_ProgrammingError, s')
    /\ (forall service, get service s' = (Raise sqlite3_ProgrammingError, s')).
Proof.
  intros Hc. unfold close. destruct (conn s) as [k|] eqn:E; [|congruence].
  eexists. split; [reflexivity|]. repeat split.
Qed.

(** One round of the loop, and the ones after it, when the hash file
    is missing. *)
Lemma _setup_crypto_loop_no_hash (answers : list str) (salt : bytes) (s : state) :
  hash_file s = None ->
  exists e s',
    _setup_crypto_loop answers salt s = (Raise e, s')
    /\ (e = FileNotFoundError \/ e = EOFError)
    /\ db_file s' = db_file s /\ salt_file s' = salt_file s
    /\ hash_file s' = None /\ conn s' = conn s
    /\ (forall p rest, answers = p :: rest -> encodable p ->
          e = FileNotFoundError).
Proof.
  revert s. induction answers as [|p rest IH]; intros s Hh; cbn [_setup_crypto_loop].
  - eexists _, _. split; [reflexivity|]. cbn. repeat split; auto. discriminate.
  - unfold except_ValueError, andthen, AESEncryptor_new, get_random_bytes,
      lift, modify, ret, _test_password, gets, raise, AESEncryptor.__init__.
    destruct (str_encode p) as [pw|ex] eqn:Ep.
    + destruct salt as [|b0 salt']; cbn; rewrite Hh; cbn;
        eexists _, _; (split; [reflexivity|]); cbn; repeat split; auto.
    + assert (forall s0 : state, hash_file s0 = None ->
                db_file s0 = db_file s -> salt_file s0 = salt_file s ->
                conn s0 = conn s ->
                exists e s',
                  _setup_crypto_loop rest salt s0 = (Raise e, s')
                  /\ (e = FileNotFoundError \/ e = EOFError)
                  /\ db_file s' = db_file s /\ salt_file s' = salt_file s
                  /\ hash_file s' = None /\ conn s' = conn s) as Hrest.
      { intros s0 H0 H1 H2 H3.
        destruct (IH s0 H0) as (e & s' & -> & He & ? & ? & ? & ? & _).
        exists e, s'. repeat split; auto; congruence. }
      apply str_encode_raises in Ep as E'. destruct E' as [-> Hns].
      destruct salt as [|b0 salt']; cbn;
        match goal with
        | |- context [_setup_crypto_loop rest ?sl ?s0] =>
            destruct (Hrest s0) as (e & s' & -> & He & ? & ? & ? & ?);
              try reflexivity; try exact Hh
        end;
        exists e, s'; repeat split; auto;
        intros p' rest' [= <- <-] [b Hb]; congruence.
Qed.

(** C3, as the code has it: when the database file and the salt file
    exist and the hash file does not, opening the vault raises
    [FileNotFoundError], or [EOFError] if no passphrase that can be
    encoded is entered; nothing is created, the three files are what
    they were and no connection is opened. (Without the salt file
    the new-vault branch is taken.) *)
Theorem open_without_hash_file (s : state) (t : table) (salt : bytes) :
  db_file s = Some t -> salt_file s = Some salt -> hash_file s = None ->
  exists e s',
    __init__ s = (Raise e, s')
    /\ (e = FileNotFoundError \/ e = EOFError)
    /\ db_file s' = Some t /\ salt_file s' = Some salt
    /\ hash_file s' = None /\ conn s' = None
    /\ (forall p rest, tty s = p :: rest -> scalar_str p ->
          e = FileNotFoundError).
Proof.
  intros Hd Hs Hh. unfold __init__, andthen, modify, _setup_crypto.
  cbn [db_file salt_file set_conn set_crypto tty]. rewrite Hd, Hs.
  match goal with
  | |- context [_setup_crypto_loop ?a ?sl ?s0] =>
      destruct (_setup_crypto_loop_no_hash a sl s0)
        as (e & s' & -> & He & H1 & H2 & H3 & H4 & H5); [exact Hh|]
  end.
  cbn in H1, H2, H4. exists e, s'. repeat split; auto; try congruence.
  intros p rest Ht Hp. eapply H5; [exact Ht|]. now apply str_encode_scalar.
Qed.

(** C9: two creations of a vault with the same passphrase write the
    same hash file, the digest of the encoded passphrase, whatever
    random salts are drawn; each salt file holds the salt drawn. *)
Theorem hash_file_unsalted (s1 s2 : state) (p : str) (pw : bytes)
    (rest1 rest2 : list str) :
  db_file s1 = None \/ salt_file s1 = None ->
  db_file s2 = None \/ salt_file s2 = None ->
  tty s1 = p :: p :: rest1 -> tty s2 = p :: p :: rest2 ->
  str_encode p = Return pw ->
  exists s1' s2',
    _setup_crypto s1 = (Return tt, s1')
    /\ _setup_crypto s2 = (Return tt, s2')
    /\ hash_file s1' = Some (sha256_hexdigest pw)
    /\ hash_file s2' = hash_file s1'
    /\ salt_file s1' = Some (entropy s1 (draws s1))
    /\ salt_file s2' = Some (entropy s2 (draws s2)).
Proof.
  assert (Hone : forall s rest,
    db_file s = None \/ salt_file s = None ->
    tty s = p :: p :: rest -> str_encode p = Return pw ->
    exists s', _setup_crypto s = (Return tt, s')
      /\ hash_file s' = Some (sha256_hexdigest pw)
      /\ salt_file s' = Some (entropy s (draws s))).
  { intros s rest Hnew Ht Hp.
    assert (_setup_crypto s =
      (run password <- getpass;
       run password2 <- getpass;
       if decide (password <> password2)
       then raise (ValueError "Пароли не совпадают")
       else
         run c <- AESEncryptor_new password None;
         run _ <- modify (set_crypto (Some c));
         run _ <- modify (set_salt_file (Some (AESEncryptor.salt c)));
         run _ <- modify (set_hash_file (Some []));
         run pw <- lift (str_encode password);
         modify (set_hash_file (Some (sha256_hexdigest pw)))) s) as ->.
    { unfold _setup_crypto.
      destruct Hnew as [-> | ->]; [reflexivity|].
      now destruct (db_file s). }
    unfold andthen, getpass. rewrite Ht. cbn [tty set_tty].
    rewrite decide_False by (intros H; now apply H).
    unfold AESEncryptor_new, andthen, get_random_bytes, lift, modify,
      AESEncryptor.__init__.
    rewrite Hp. cbn. eexists. split; [reflexivity|]. now split. }
  intros N1 N2 T1 T2 Hp.
  destruct (Hone s1 rest1 N1 T1 Hp) as (s1' & R1 & H1 & S1).
  destruct (Hone s2 rest2 N2 T2 Hp) as (s2' & R2 & H2 & S2).
  exists s1', s2'. repeat split; auto. congruence.
Qed.
End Methods.
End PasswordStorageFacts.

(** ** The definitions at concrete inputs *)

Lemma sample_crypto_tag_16 : gcm_tag_16 sample_crypto.
Proof.
  intros key nonce c. unfold gcm_tag, sample_crypto.
  now rewrite List.length_map, List.length_seq.
Qed.

Lemma sample_entropy_16 (i : nat) : length (sample_entropy i) = 16%nat.
Proof. destruct i as [|[|i]]; reflexivity. Qed.

Lemma sample_vault_unlocked : unlocked sample_vault sample_encryptor sample_table.
Proof. repeat split. Qed.

Lemma decrypt_encrypt_roundtrip_witness :
  exists e,
    @AESEncryptor.encrypt sample_crypto sample_encryptor sample_nonce [104; 105]
    = Return e
    /\ @AESEncryptor.decrypt sample_crypto sample_encryptor e = Return [104; 105].
Proof.
  apply (@decrypt_encrypt_roundtrip sample_crypto sample_encryptor sample_nonce
           [104; 105]).
  - exact sample_crypto_tag_16.
  - reflexivity.
  - repeat constructor.
Defined.

(** Against C2: with the last data character of the encoded field changed
    from "A" to "B" [decrypt] raises nothing and returns the plaintext
    (the four low bits of that character are dropped by the decoder, see
    [decrypt_padding_bits]); with the first character changed to "!" it
    raises [binascii.Error], not the [ValueError] of a failed tag check. *)
Lemma tamper_undetected_counterexample :
  @AESEncryptor.encrypt sample_crypto sample_encryptor sample_nonce [104; 105]
  = Return sample_field
  /\ sample_field !! 45%nat = Some 65
  /\ @AESEncryptor.decrypt sample_crypto sample_encryptor
       (<[45%nat := 66]> sample_field) = Return [104; 105]
  /\ @AESEncryptor.decrypt sample_crypto sample_encryptor
       (<[0%nat := 33]> sample_field) = Raise binascii_Error.
Proof. repeat split; vm_compute; reflexivity. Qed.

Lemma decrypt_modified_char_witness :
  exists data, decoded sample_field = Return data /\
    match @AESEncryptor.decrypt sample_crypto sample_encryptor
            (<[45%nat := 66]> sample_field) with
    | Return s' =>
        (s' = [104; 105] /\ decoded (<[45%nat := 66]> sample_field) = Return data)
        \/ exists data', decoded (<[45%nat := 66]> sample_field) = Return data'
             /\ @tag_forgery sample_crypto sample_encryptor data data'
    | Raise UnicodeDecodeError =>
        exists data', decoded (<[45%nat := 66]> sample_field) = Return data'
          /\ @tag_forgery sample_crypto sample_encryptor data data'
    | Raise ex =>
        ex = UnicodeEncodeError \/ ex = binascii_Error
        \/ ex = ValueError "MAC check failed"
        \/ ex = ValueError "Nonce cannot be empty"
    end.
Proof.
  apply (@decrypt_modified_char sample_crypto sample_encryptor sample_nonce
           [104; 105] sample_field 45 66).
  - exact sample_crypto_tag_16.
  - reflexivity.
  - vm_compute. reflexivity.
Defined.

(** Against C4: the empty string and "QUFB" decode to 0 and to 3 bytes,
    fewer than the 32 of a nonce and a tag, and [decrypt] raises
    [ValueError], the exception of a failed tag check, not
    [binascii.Error]; and an encoded field followed by "!", which is not
    Base64, is decrypted (see [decrypt_noncanonical]). *)
Lemma decrypt_short_input_counterexample :
  decoded [] = Return []
  /\ @AESEncryptor.decrypt sample_crypto sample_encryptor []
     = Raise (ValueError "Nonce cannot be empty")
  /\ decoded [81; 85; 70; 66] = Return ["A"%byte; "A"%byte; "A"%byte]
  /\ @AESEncryptor.decrypt sample_crypto sample_encryptor [81; 85; 70; 66]
     = Raise (ValueError "MAC check failed")
  /\ @AESEncryptor.decrypt sample_crypto sample_encryptor (sample_field ++ [33])
     = Return [104; 105].
Proof. repeat split; vm_compute; reflexivity. Qed.

Lemma decrypt_malformed_witness :
  (forall ex, b64decode (list_byte_of_string "QUFB") = Raise ex ->
     @AESEncryptor.decrypt sample_crypto sample_encryptor [81; 85; 70; 66]
     = Raise binascii_Error)
  /\ (forall data, b64decode (list_byte_of_string "QUFB") = Return data ->
        (length data < 32)%nat ->
        @AESEncryptor.decrypt sample_crypto sample_encryptor [81; 85; 70; 66]
        = Raise (ValueError (match data with
                             | [] => "Nonce cannot be empty"
                             | _ => "MAC check failed"
                             end))).
Proof.
  apply (@decrypt_malformed sample_crypto sample_encryptor [81; 85; 70; 66]
           (list_byte_of_string "QUFB")).
  - exact sample_crypto_tag_16.
  - reflexivity.
Defined.

(** Against C3: with the database present and the salt file missing,
    opening the vault raises nothing; it runs the new-vault branch, writes
    a new salt and overwrites the hash file. *)
Lemma open_without_salt_file_counterexample :
  (@PasswordStorage.__init__ sample_crypto vault_without_salt_file).1 = Return tt
  /\ PasswordStorage.salt_file
       (@PasswordStorage.__init__ sample_crypto vault_without_salt_file).2
     = Some sample_nonce
  /\ PasswordStorage.hash_file
       (@PasswordStorage.__init__ sample_crypto vault_without_salt_file).2
     = Some (@sha256_hexdigest sample_crypto (list_byte_of_string "p@ss"))
  /\ PasswordStorage.hash_file
       (@PasswordStorage.__init__ sample_crypto vault_without_salt_file).2
     <> PasswordStorage.hash_file vault_without_salt_file.
Proof. repeat split; try (vm_compute; reflexivity). vm_compute. discriminate. Qed.

Lemma open_without_hash_file_witness :
  exists e s',
    @PasswordStorage.__init__ sample_crypto vault_without_hash_file = (Raise e, s')
    /\ (e = FileNotFoundError \/ e = EOFError)
    /\ PasswordStorage.db_file s' = Some sample_table
    /\ PasswordStorage.salt_file s' = Some sample_salt
    /\ PasswordStorage.hash_file s' = None /\ PasswordStorage.conn s' = None
    /\ (forall p rest, PasswordStorage.tty vault_without_hash_file = p :: rest ->
          scalar_str p -> e = FileNotFoundError).
Proof.
  apply (@PasswordStorageFacts.open_without_hash_file sample_crypto
           vault_without_hash_file); reflexivity.
Defined.

(** Against C5: after [close] has returned, [self.crypto] still holds the
    32 bytes of the derived key. *)
Lemma close_key_kept_counterexample :
  (PasswordStorage.close sample_vault).1 = Return tt
  /\ AESEncryptor.key <$> PasswordStorage.crypto (PasswordStorage.close sample_vault).2
     = Some (@PBKDF2 sample_crypto (list_byte_of_string "p@ss") sample_salt)
  /\ length (@PBKDF2 sample_crypto (list_byte_of_string "p@ss") sample_salt) = 32%nat.
Proof. repeat split. Qed.

Lemma close_keeps_key_witness :
  exists s',
    PasswordStorage.close sample_vault = (Return tt, s')
    /\ PasswordStorage.conn s' = Some PasswordStorage.ClosedConnection
    /\ PasswordStorage.crypto s' = PasswordStorage.crypto sample_vault
    /\ PasswordStorage.list_all s' = (Raise sqlite3_ProgrammingError, s')
    /\ (forall service,
          @PasswordStorage.get sample_crypto service s'
          = (Raise sqlite3_ProgrammingError, s')).
Proof.
  apply (@PasswordStorageFacts.close_keeps_key sample_crypto sample_vault).
  discriminate.
Defined.

Lemma save_twice_get_witness :
  exists s1 s2 t1 t2,
    @PasswordStorage.save sample_crypto github alice secret1 sample_vault
    = (Return tt, s1)
    /\ @PasswordStorage.save sample_crypto github bob secret2 s1 = (Return tt, s2)
    /\ PasswordStorage.db_file s1 = Some t1 /\ PasswordStorage.db_file s2 = Some t2
    /\ length (filter (fun r => r.1 = github) (map_to_list t2)) = 1%nat
    /\ size t2 = size t1
    /\ @PasswordStorage.get sample_crypto github s2
       = (Return (Some (bob, secret2)), s2).
Proof.
  apply (@PasswordStorageFacts.save_twice_get sample_crypto sample_vault
           sample_encryptor sample_table github alice secret1 bob secret2).
  - exact sample_crypto_tag_16.
  - exact sample_vault_unlocked.
  - exact sample_entropy_16.
  - repeat constructor.
  - repeat constructor.
  - repeat constructor.
  - repeat constructor.
  - repeat constructor.
Defined.

(** [get] of the stored "github" returns ("alice", "secret1"), the login
    and password its row was encrypted from; [get] of "x", which has no
    row, returns [None]. *)
Lemma get_absent_or_pair_witness :
  @PasswordStorage.get sample_crypto github sample_vault
  = (Return (Some (alice, secret1)), sample_vault)
  /\ @PasswordStorage.get sample_crypto [120] sample_vault
     = (Return None, sample_vault).
Proof.
  split.
  - refine (proj2
              (proj2 (@PasswordStorageFacts.get_absent_or_pair sample_crypto
                        sample_vault sample_encryptor sample_table github
                        sample_vault_unlocked _) _ _ _)
              sample_nonce sample_nonce' alice secret1
              sample_crypto_tag_16 _ _ _ _).
    + repeat constructor.
    + vm_compute. reflexivity.
    + reflexivity.
    + reflexivity.
    + vm_compute. reflexivity.
    + vm_compute. reflexivity.
  - refine (proj1
              (proj1 (@PasswordStorageFacts.get_absent_or_pair sample_crypto
                        sample_vault sample_encryptor sample_table [120]
                        sample_vault_unlocked _)) _).
    + repeat constructor.
    + vm_compute. reflexivity.
Defined.

(** C8: after "apple" and then "Zebra" are saved in an empty vault,
    [list_all] returns "Zebra" before "apple", as the code points of "Z"
    and "a" are 90 and 97: the list is not in the alphabetical order its
    docstring promises, which has "apple" first. *)
Theorem list_all_Zebra_apple :
  (PasswordStorage.list_all apple_Zebra_vault).1 = Return [Zebra; apple]
  /\ alphabetical_le apple Zebra
  /\ ~ alphabetical_le Zebra apple
  /\ ~ Sorted alphabetical_le [Zebra; apple].
Proof.
  assert (H : ~ alphabetical_le Zebra apple).
  { unfold alphabetical_le, str_le. vm_compute. discriminate. }
  split; [vm_compute; reflexivity|]. split; [reflexivity|]. split; [exact H|].
  intros Hs. apply Sorted_inv in Hs as [_ Hd]. apply HdRel_inv in Hd. now apply H.
Qed.

(** On the vault with rows for "b", "a" and "c": the three names are
    listed in ascending order, which for them is the alphabetical one. *)
Lemma list_all_sorted_witness :
  exists names,
    PasswordStorage.list_all b_a_c_vault = (Return names, b_a_c_vault)
    /\ Sorted str_le names
    /\ NoDup names
    /\ (forall service, service ∈ names <-> is_Some (b_a_c_table !! service))
    /\ (forall s' t', PasswordStorage.conn s' = Some PasswordStorage.Connected ->
          PasswordStorage.db_file s' = Some t' ->
          dom t' = dom b_a_c_table ->
          PasswordStorage.list_all s' = (Return names, s'))
    /\ (Forall lowercase names -> Sorted alphabetical_le names).
Proof.
  apply (PasswordStorageFacts.list_all_sorted b_a_c_vault); reflexivity.
Defined.

Lemma hash_file_unsalted_witness :
  exists s1' s2',
    @PasswordStorage._setup_crypto sample_crypto
      (no_vault sample_nonce [sample_passphrase; sample_passphrase])
    = (Return tt, s1')
    /\ @PasswordStorage._setup_crypto sample_crypto
         (no_vault sample_salt [sample_passphrase; sample_passphrase])
       = (Return tt, s2')
    /\ PasswordStorage.hash_file s1'
       = Some (@sha256_hexdigest sample_crypto (list_byte_of_string "p@ss"))
    /\ PasswordStorage.hash_file s2' = PasswordStorage.hash_file s1'
    /\ PasswordStorage.salt_file s1' = Some sample_nonce
    /\ PasswordStorage.salt_file s2' = Some sample_salt.
Proof.
  apply (@PasswordStorageFacts.hash_file_unsalted sample_crypto
           (no_vault sample_nonce [sample_passphrase; sample_passphrase])
           (no_vault sample_salt [sample_passphrase; sample_passphrase])
           sample_passphrase (list_byte_of_string "p@ss") [] []).
  - left. reflexivity.
  - left. reflexivity.
  - reflexivity.
  - reflexivity.
  - reflexivity.
Defined.

(** A login that holds a lone surrogate cannot be encoded, so the first
    [encrypt] of [save] raises. *)
Lemma save_encrypt_raises_witness :
  exists s',
    @PasswordStorage.save sample_crypto github [0xD800] secret1 sample_vault
    = (Raise UnicodeEncodeError, s')
    /\ PasswordStorage.db_file s' = PasswordStorage.db_file sample_vault
    /\ PasswordStorage.salt_file s' = PasswordStorage.salt_file sample_vault
    /\ PasswordStorage.hash_file s' = PasswordStorage.hash_file sample_vault.
Proof.
  apply (@PasswordStorageFacts.save_encrypt_raises sample_crypto sample_vault
           sample_encryptor github [0xD800] secret1 UnicodeEncodeError).
  - reflexivity.
  - left. reflexivity.
Defined.

(** ** The scenarios of the specification, run on the small instance *)

(** Reopened with "p@ss", the vault gives the pair back. *)
Example reopen_and_get :
  (@PasswordStorage.get sample_crypto github
     (after (@PasswordStorage.__init__ sample_crypto)
        (PasswordStorage.set_tty [sample_passphrase] closed_vault))).1
  = Return (Some (alice, secret1)).
Proof. vm_compute. reflexivity. Qed.

(** Reopened with "wrong", it asks again, and stays locked when no other
    answer comes. *)
Example reopen_with_wrong_passphrase :
  let s := (@PasswordStorage.__init__ sample_crypto)
             (PasswordStorage.set_tty [[119; 114; 111; 110; 103]] closed_vault) in
  s.1 = Raise EOFError /\ PasswordStorage.conn s.2 = None.
Proof. vm_compute. split; reflexivity. Qed.

(** Services saved in the order "b", "a", "c" are listed as "a", "b", "c". *)
Example list_all_b_a_c :
  (PasswordStorage.list_all
     (after (@PasswordStorage.save sample_crypto [99] alice secret1)
        (after (@PasswordStorage.save sample_crypto [97] alice secret1)
           (after (@PasswordStorage.save sample_crypto [98] alice secret1)
              (PasswordStorage.set_db_file (Some ∅) sample_vault))))).1
  = Return [[97]; [98]; [99]].
Proof. vm_compute. reflexivity. Qed.

(** Deleting a service that is not there raises nothing and changes
    nothing. *)
Example delete_absent :
  PasswordStorage.delete [120] sample_vault = (Return tt, sample_vault).
Proof. vm_compute. reflexivity. Qed.

(** * Further properties of [AESEncryptor] *)

Lemma b2a_base64_length (data : bytes) :
  length (b2a_base64 data) = (4 * ((length data + 2) / 3))%nat.
Proof.
  induction data as [|x|x y|x y z l IH] using list_ind3;
    cbn [b2a_base64 length app]; try reflexivity.
  rewrite IH.
  replace (S (S (S (length l))) + 2)%nat with (length l + 2 + 1 * 3)%nat by lia.
  rewrite Nat.div_add by lia. lia.
Qed.

Lemma b2a_in_table (v : N) : v < 64 -> In (b2a v) table_b2a_base64.
Proof.
  intros Hv. unfold b2a. apply nth_In.
  change (length table_b2a_base64) with 64%nat. lia.
Qed.

Lemma b2a_base64_chars (data : bytes) :
  Forall base64_char (map ord (b2a_base64 data)).
Proof.
  assert (Hb : forall v, v < 64 -> base64_char (ord (b2a v))).
  { intros v Hv. left. apply in_map, b2a_in_table, Hv. }
  induction data as [|x|x y|x y z l IH] using list_ind3;
    cbn [b2a_base64 app map];
    try pose proof (ord_lt x); try pose proof (ord_lt y);
    try pose proof (ord_lt z);
    repeat match goal with
           | |- Forall _ (_ :: _) => constructor
           | |- Forall _ [] => constructor
           end;
    try exact IH; try (now right); apply Hb; div_lia.
Qed.

Lemma utf8_char_Return_scalar (c : N) (b : bytes) :
  utf8_char c = Return b -> is_scalar c = true.
Proof.
  unfold utf8_char, is_scalar, is_surrogate.
  destruct (N.ltb_spec c 0x80), (N.ltb_spec c 0x800), (N.ltb_spec c 0x10000),
           (N.ltb_spec c 0x110000), (N.leb_spec 0xD800 c), (N.leb_spec c 0xDFFF),
           (N.leb_spec c 0x10FFFF);
    cbn; intros; try discriminate; try reflexivity; lia.
Qed.

Lemma str_encode_Return_scalar (s : str) (b : bytes) :
  str_encode s = Return b -> scalar_str s.
Proof.
  revert b. induction s as [|c s IH]; intros b; [constructor|].
  cbn [str_encode]. destruct (utf8_char c) as [bc|] eqn:Ec; [|discriminate].
  cbn [bind]. destruct (str_encode s) as [bs|] eqn:Es; [|discriminate].
  intros _. constructor; [exact (utf8_char_Return_scalar c bc Ec) | exact (IH bs eq_refl)].
Qed.

Lemma utf8_char_length (c : N) (b : bytes) :
  utf8_char c = Return b -> (1 <= length b <= 4)%nat.
Proof.
  unfold utf8_char. repeat case_match; intros [= <-]; cbn [length]; lia.
Qed.

(** An encoded string has at least as many bytes as the string has
    characters, and at most four times as many. *)
Lemma str_encode_length (s : str) (b : bytes) :
  str_encode s = Return b -> (length s <= length b <= 4 * length s)%nat.
Proof.
  revert b. induction s as [|c s IH]; intros b; cbn [str_encode].
  - intros [= <-]. cbn. lia.
  - destruct (utf8_char c) as [bc|] eqn:Ec; [|discriminate]. cbn [bind].
    destruct (str_encode s) as [bs|] eqn:Es; [|discriminate]. cbn [bind].
    intros [= <-]. rewrite length_app. cbn [length].
    pose proof (utf8_char_length _ _ Ec). pose proof (IH _ eq_refl). lia.
Qed.

Section AESEncryptorMore.
Context {L : Crypto}.

Lemma encrypted_bytes_length (self : AESEncryptor.t) (nonce pt : bytes) :
  gcm_tag_16 L -> length nonce = 16%nat ->
  length (encrypted_bytes self nonce pt) = (32 + length pt)%nat.
Proof.
  intros Ht Hn. unfold encrypted_bytes.
  rewrite !length_app, Hn, Ht, gcm_crypt_length. lia.
Qed.

(** X1: with its 16-byte nonce [encrypt] raises on no string of Unicode
    scalar values, and on any other string it raises
    [UnicodeEncodeError] and nothing else. *)
Theorem encrypt_raises (self : AESEncryptor.t) (nonce : bytes) (text : str) :
  length nonce = 16%nat ->
  (scalar_str text -> exists e, AESEncryptor.encrypt self nonce text = Return e)
  /\ (~ scalar_str text ->
        AESEncryptor.encrypt self nonce text = Raise UnicodeEncodeError).
Proof.
  intros Hn. split.
  - intros [pt Hpt]%str_encode_scalar. eexists.
    exact (encrypt_eq self nonce text pt Hn Hpt).
  - intros Hns. unfold AESEncryptor.encrypt. rewrite (AES_new_16 _ _ Hn).
    cbn [bind]. destruct (str_encode text) as [pt|ex] eqn:E.
    + exfalso. apply Hns. now apply (str_encode_Return_scalar text pt).
    + apply str_encode_raises in E as [-> _]. reflexivity.
Qed.

(** X2: whatever string [decrypt] is given and whatever it raises, an
    [except ValueError] clause catches it: the exception is [ValueError]
    or one of its subclasses [binascii.Error], [UnicodeEncodeError] and
    [UnicodeDecodeError]. *)
Theorem decrypt_raises_ValueError (self : AESEncryptor.t) (e : str) (ex : exn) :
  AESEncryptor.decrypt self e = Raise ex -> is_ValueError ex = true.
Proof.
  rewrite decrypt_unfold.
  destruct (decoded e) as [data|ex'] eqn:Ed; cbn [bind].
  2:{ intros [= <-]. now destruct (decoded_raises _ _ Ed) as [-> | ->]. }
  destruct (take 16 data) as [|n0 nonce'] eqn:En; cbn [AES_new bind];
    [now intros [= <-]|].
  unfold decrypt_and_verify. cbn [fst snd].
  case_decide; cbn [bind]; [|now intros [= <-]].
  intros Hb%bytes_decode_raises. now subst.
Qed.

(** X3: what [encrypt] returns is Base64 text, made of characters of the
    alphabet and of padding only, whose length is fixed by the length of
    the encoded plaintext: four characters for every three of the 32 + n
    bytes of nonce, tag and ciphertext, rounded up. *)
Theorem encrypt_output_shape (self : AESEncryptor.t) (nonce : bytes)
    (text e : str) :
  gcm_tag_16 L -> length nonce = 16%nat ->
  AESEncryptor.encrypt self nonce text = Return e ->
  exists pt,
    str_encode text = Return pt
    /\ length e = (4 * ((32 + length pt + 2) / 3))%nat
    /\ Forall base64_char e.
Proof.
  intros Ht Hn He.
  destruct (encrypt_inv self nonce text e Hn He) as (pt & Hs & ->).
  exists pt. split; [exact Hs|]. unfold encoded_field, b64encode. split.
  - now rewrite List.length_map, b2a_base64_length, encrypted_bytes_length.
  - apply b2a_base64_chars.
Qed.

(** X4: what [encrypt] returns is longer than the text it was given, by at
    least 43 characters; so it never is that text. *)
Theorem encrypt_longer_than_text (self : AESEncryptor.t) (nonce : bytes)
    (text e : str) :
  gcm_tag_16 L -> length nonce = 16%nat ->
  AESEncryptor.encrypt self nonce text = Return e ->
  (length text + 43 <= length e)%nat /\ e <> text.
Proof.
  intros Ht Hn He.
  destruct (encrypt_output_shape self nonce text e Ht Hn He) as (pt & Hs & Hl & _).
  pose proof (str_encode_length _ _ Hs) as [Hle _].
  assert (length text + 43 <= length e)%nat.
  { rewrite Hl. pose proof (Nat.div_mod_eq (32 + length pt + 2) 3).
    pose proof (Nat.mod_upper_bound (32 + length pt + 2) 3). lia. }
  split; [assumption|]. intros ->. lia.
Qed.

(** X5: two calls of [encrypt] that draw different nonces return different
    strings, whatever the keys and the texts are. *)
Theorem encrypt_distinct_nonces (self1 self2 : AESEncryptor.t)
    (nonce1 nonce2 : bytes) (text1 text2 e1 e2 : str) :
  gcm_tag_16 L -> length nonce1 = 16%nat -> length nonce2 = 16%nat ->
  AESEncryptor.encrypt self1 nonce1 text1 = Return e1 ->
  AESEncryptor.encrypt self2 nonce2 text2 = Return e2 ->
  nonce1 <> nonce2 -> e1 <> e2.
Proof.
  intros Ht H1 H2 He1 He2 Hne Heq.
  destruct (encrypt_inv self1 nonce1 text1 e1 H1 He1) as (pt1 & _ & ->).
  destruct (encrypt_inv self2 nonce2 text2 e2 H2 He2) as (pt2 & _ & ->).
  apply (f_equal decoded) in Heq. rewrite !decoded_encoded_field in Heq.
  injection Heq as Heq. apply (f_equal (take 16)) in Heq.
  destruct (encrypted_bytes_fields self1 nonce1 pt1 Ht H1) as (F1 & _).
  destruct (encrypted_bytes_fields self2 nonce2 pt2 Ht H2) as (F2 & _).
  congruence.
Qed.

(** X6: a field encrypted under one key is refused under another, with
    [ValueError("MAC check failed")], whenever the two keys give different
    tags for its nonce and ciphertext. *)
Theorem decrypt_wrong_key (self other : AESEncryptor.t) (nonce : bytes)
    (text e : str) :
  gcm_tag_16 L -> length nonce = 16%nat ->
  AESEncryptor.encrypt self nonce text = Return e ->
  (forall pt, str_encode text = Return pt ->
     let c := gcm_crypt (AESEncryptor.key self) nonce pt in
     gcm_tag (AESEncryptor.key other) nonce c
     <> gcm_tag (AESEncryptor.key self) nonce c) ->
  AESEncryptor.decrypt other e = Raise (ValueError "MAC check failed").
Proof.
  intros Ht Hn He Hk.
  destruct (encrypt_inv self nonce text e Hn He) as (pt & Hs & ->).
  specialize (Hk pt Hs). cbv zeta in Hk.
  rewrite decrypt_unfold, decoded_encoded_field. cbn [bind].
  destruct (encrypted_bytes_fields self nonce pt Ht Hn) as (-> & -> & ->).
  rewrite (AES_new_16 _ _ Hn). cbn [bind].
  unfold decrypt_and_verify. cbn [fst snd].
  rewrite decide_False; [reflexivity|]. intros Heq. apply Hk. symmetry. exact Heq.
Qed.

(** X7: when one byte of the tag field of the encrypted bytes is changed
    and the bytes are encoded again, [decrypt] raises
    [ValueError("MAC check failed")]. *)
Theorem decrypt_flipped_tag_byte (self : AESEncryptor.t) (nonce pt : bytes)
    (j : nat) (b : byte) :
  gcm_tag_16 L -> length nonce = 16%nat -> (j < 16)%nat ->
  let c := gcm_crypt (AESEncryptor.key self) nonce pt in
  let tag := gcm_tag (AESEncryptor.key self) nonce c in
  tag !! j <> Some b ->
  AESEncryptor.decrypt self (map ord (b64encode (nonce ++ <[j:=b]> tag ++ c)))
  = Raise (ValueError "MAC check failed").
Proof.
  intros Ht Hn Hj c tag Hb.
  apply decrypt_modified_tag; [exact Hn | rewrite length_insert; apply Ht | ].
  fold c. fold tag. intros Heq. apply Hb.
  rewrite <- Heq. apply list_lookup_insert_eq. unfold tag. rewrite Ht. exact Hj.
Qed.

(** X9: characters the Base64 decoder skips, such as a newline or a
    space, can follow what [encrypt] returned without [decrypt] taking
    notice. *)
Theorem decrypt_trailing_skipped (self : AESEncryptor.t) (nonce : bytes)
    (text e : str) (junk : bytes) :
  gcm_tag_16 L -> length nonce = 16%nat ->
  AESEncryptor.encrypt self nonce text = Return e ->
  Forall skipped junk -> ascii_bytes junk ->
  AESEncryptor.decrypt self (e ++ map ord junk) = Return text.
Proof.
  intros Ht Hn He Hj Ha.
  destruct (encrypt_inv self nonce text e Hn He) as (pt & Hs & ->).
  unfold encoded_field, b64encode.
  rewrite <- (b2a_base64_bits_0 (encrypted_bytes self nonce pt)), <- map_app.
  now apply decrypt_noncanonical.
Qed.
End AESEncryptorMore.

(** * Further properties of [PasswordStorage] *)

Module PasswordStorageMore.
Import PasswordStorage PasswordStorageParts.

Lemma same_files_refl (s : state) : same_files s s.
Proof. now repeat split. Qed.

Lemma same_files_trans (s1 s2 s3 : state) :
  same_files s1 s2 -> same_files s2 s3 -> same_files s1 s3.
Proof. unfold same_files. intros (? & ? & ?) (? & ? & ?). repeat split; congruence. Qed.

Section Methods.
Context {L : Crypto}.

Lemma round_accepted (h p : str) (pw salt : bytes) (s : state) :
  salt <> [] -> hash_file s = Some h -> accepted h p pw ->
  round p salt s = (Return tt, set_crypto (Some (derived pw salt)) s).
Proof.
  intros Hs Hh [Hp Hd]. destruct salt as [|b0 salt']; [congruence|].
  unfold round, andthen, AESEncryptor_new, ret, lift, modify, _test_password,
    gets, raise, AESEncryptor.__init__.
  rewrite Hp. cbn. rewrite Hh. cbn. rewrite ?Hp. cbn.
  now rewrite decide_False by (intros Hne; now apply Hne).
Qed.

Lemma round_rejected (h w : str) (salt : bytes) (s : state) :
  salt <> [] -> hash_file s = Some h -> rejected h w ->
  exists e s',
    round w salt s = (Raise e, s') /\ is_ValueError e = true
    /\ same_files s s' /\ conn s' = conn s /\ hash_file s' = Some h
    /\ entropy s' = entropy s /\ draws s' = draws s.
Proof.
  intros Hs Hh Hr. destruct salt as [|b0 salt']; [congruence|].
  unfold round, andthen, AESEncryptor_new, ret, lift, modify, _test_password,
    gets, raise, AESEncryptor.__init__.
  destruct (str_encode w) as [pw|ex] eqn:Ew; cbn.
  - rewrite Hh. cbn. rewrite ?Ew. cbn. rewrite decide_True by now apply Hr.
    eexists _, _. split; [reflexivity|]. now repeat split.
  - apply str_encode_raises in Ew as [-> _].
    eexists _, _. split; [reflexivity|]. now repeat split.
Qed.

(** Whatever the answers are, the loop writes no file and opens no
    connection. *)
Lemma _setup_crypto_loop_files (answers : list str) (salt : bytes) (s : state) :
  same_files s (_setup_crypto_loop answers salt s).2
  /\ conn (_setup_crypto_loop answers salt s).2 = conn s.
Proof.
  revert s. induction answers as [|p rest IH]; intros s; cbn [_setup_crypto_loop].
  - now repeat split.
  - unfold except_ValueError.
    assert (Hbody : forall s0,
      same_files s0 ((run c <- AESEncryptor_new p (Some salt);
                      run _ <- modify (set_crypto (Some c));
                      _test_password p) s0).2
      /\ conn ((run c <- AESEncryptor_new p (Some salt);
                run _ <- modify (set_crypto (Some c));
                _test_password p) s0).2 = conn s0).
    { intros s0.
      unfold andthen, AESEncryptor_new, get_random_bytes, ret, lift, modify,
        _test_password, gets, raise, AESEncryptor.__init__.
      destruct salt as [|b0 salt']; destruct (str_encode p) as [pw|ex]; cbn;
        try destruct (hash_file s0) as [h|]; cbn;
        try case_decide; cbn; now repeat split. }
    specialize (Hbody (set_tty rest s)).
    destruct ((run c <- AESEncryptor_new p (Some salt);
               run _ <- modify (set_crypto (Some c));
               _test_password p) (set_tty rest s)) as [[u|e] s0];
      cbn [snd] in Hbody |- *; destruct Hbody as [F C];
      assert (F0 : same_files s s0) by exact F;
      assert (C0 : conn s0 = conn s) by exact C.
    + now split.
    + destruct (is_ValueError e); [|now split].
      destruct (IH s0) as [F' C'].
      split; [eapply same_files_trans; [exact F0 | exact F'] | congruence].
Qed.

(** The loop passes over rejected answers and stops at the first accepted
    one, with the key derived from it and the stored salt. *)
Lemma _setup_crypto_loop_accepts (wrongs rest : list str) (h p : str)
    (pw salt : bytes) (s : state) :
  salt <> [] -> hash_file s = Some h ->
  Forall (rejected h) wrongs -> accepted h p pw ->
  exists s',
    _setup_crypto_loop (wrongs ++ p :: rest) salt s = (Return tt, s')
    /\ crypto s' = Some (derived pw salt) /\ tty s' = rest
    /\ same_files s s' /\ conn s' = conn s
    /\ entropy s' = entropy s /\ draws s' = draws s.
Proof.
  intros Hs Hh Hw Ha. revert s Hh.
  induction Hw as [|w wrongs Hr _ IH]; intros s Hh; cbn [app _setup_crypto_loop].
  - unfold except_ValueError. fold (round p salt).
    rewrite (round_accepted h p pw salt (set_tty rest s) Hs Hh Ha).
    eexists. split; [reflexivity|]. now repeat split.
  - unfold except_ValueError. fold (round w salt).
    destruct (round_rejected h w salt (set_tty (wrongs ++ p :: rest) s) Hs Hh Hr)
      as (e & s0 & -> & -> & F & C & Hh0 & E & D).
    destruct (IH s0 Hh0) as (s' & -> & K & T & F' & C' & E' & D').
    exists s'. split; [reflexivity|].
    repeat split; try congruence;
      destruct F as (? & ? & ?), F' as (? & ? & ?); cbn in *; congruence.
Qed.

Lemma _setup_crypto_loop_rejects (answers : list str) (h : str) (salt : bytes)
    (s : state) :
  salt <> [] -> hash_file s = Some h -> Forall (rejected h) answers ->
  (_setup_crypto_loop answers salt s).1 = Raise EOFError.
Proof.
  intros Hs Hh Hw. revert s Hh.
  induction Hw as [|w wrongs Hr _ IH]; intros s Hh; cbn [_setup_crypto_loop].
  - reflexivity.
  - unfold except_ValueError. fold (round w salt).
    destruct (round_rejected h w salt (set_tty wrongs s) Hs Hh Hr)
      as (e & s0 & -> & -> & F & C & Hh0 & E & D).
    now apply IH.
Qed.

Lemma _setup_crypto_new (s : state) :
  db_file s = None \/ salt_file s = None -> _setup_crypto s = new_vault s.
Proof.
  unfold _setup_crypto, new_vault.
  intros [-> | ->]; [reflexivity|]. now destruct (db_file s).
Qed.

Lemma _setup_crypto_existing (s : state) (t : table) (salt : bytes) :
  db_file s = Some t -> salt_file s = Some salt ->
  _setup_crypto s = _setup_crypto_loop (tty s) salt s.
Proof. unfold _setup_crypto. now intros -> ->. Qed.

(** A raise in the new-vault branch comes before the first write. *)
Lemma new_vault_raises (s s' : state) (e : exn) :
  new_vault s = (Raise e, s') -> same_files s s' /\ conn s' = conn s.
Proof.
  unfold new_vault, andthen, getpass.
  destruct (tty s) as [|p [|p2 rest]] eqn:Et; cbn [tty set_tty].
  - intros [= _ <-]. now repeat split.
  - intros [= _ <-]. now repeat split.
  - case_decide as Hne.
    + intros [= _ <-]. now repeat split.
    + unfold AESEncryptor_new, andthen, get_random_bytes, lift, modify,
        AESEncryptor.__init__.
      destruct (str_encode p) as [pw|ex] eqn:Ep; cbn; rewrite ?Ep; cbn.
      * discriminate.
      * intros [= _ <-]. now repeat split.
Qed.

Lemma __init___split (s : state) :
  __init__ s =
    match _setup_crypto (set_crypto None (set_conn None s)) with
    | (Return _, s1) => (run _ <- connect; _init_db) s1
    | (Raise e, s1) => (Raise e, s1)
    end.
Proof. reflexivity. Qed.

Lemma connect_init_db (s : state) :
  (run _ <- connect; _init_db) s
  = (Return tt, set_conn (Some Connected)
                  (set_db_file (Some (default ∅ (db_file s))) s)).
Proof.
  unfold andthen, connect, modify, _init_db, cursor_execute, conn_commit.
  cbn. now destruct s.
Qed.

Lemma new_vault_run (s : state) (p : str) (pw : bytes) (rest : list str) :
  tty s = p :: p :: rest -> str_encode p = Return pw ->
  new_vault s =
    (Return tt,
     set_hash_file (Some (sha256_hexdigest pw))
       (set_salt_file (Some (entropy s (draws s)))
          (set_crypto (Some (derived pw (entropy s (draws s))))
             (set_draws (S (draws s)) (set_tty rest s))))).
Proof.
  intros Ht Hp. unfold new_vault, andthen, getpass. rewrite Ht.
  cbn [tty set_tty].
  rewrite decide_False by (intros H; now apply H).
  unfold AESEncryptor_new, andthen, get_random_bytes, lift, modify,
    AESEncryptor.__init__.
  rewrite Hp. cbn. reflexivity.
Qed.

(** X10: where there is no vault yet (the database file or the salt file
    is missing) and the same passphrase is entered twice, opening creates
    the vault: the salt file holds the 16 random bytes drawn, the hash
    file the digest of the passphrase, and the object is unlocked with
    the key derived from the passphrase and that salt, on the table the
    database file held before, or on the empty one. The empty passphrase
    is taken like any other. *)
Theorem create_vault_unlocks (s : state) (p : str) (pw : bytes) (rest : list str) :
  db_file s = None \/ salt_file s = None ->
  tty s = p :: p :: rest -> str_encode p = Return pw ->
  let salt := entropy s (draws s) in
  exists s',
    __init__ s = (Return tt, s')
    /\ unlocked s' (derived pw salt) (default ∅ (db_file s))
    /\ salt_file s' = Some salt
    /\ hash_file s' = Some (sha256_hexdigest pw)
    /\ tty s' = rest.
Proof.
  intros Hnew Ht Hp salt. rewrite __init___split.
  rewrite _setup_crypto_new by exact Hnew.
  rewrite (new_vault_run (set_crypto None (set_conn None s)) p pw rest Ht Hp),
    connect_init_db.
  eexists. split; [reflexivity|]. now repeat split.
Qed.

(** X11: when the two passphrases entered for a new vault differ, opening
    raises [ValueError("Пароли не совпадают")]; no file is written and
    the object stays without key and connection. *)
Theorem create_mismatch (s : state) (p p2 : str) (rest : list str) :
  db_file s = None \/ salt_file s = None ->
  tty s = p :: p2 :: rest -> p <> p2 ->
  exists s',
    __init__ s = (Raise (ValueError "Пароли не совпадают"), s')
    /\ same_files s s' /\ crypto s' = None /\ conn s' = None.
Proof.
  intros Hnew Ht Hne. rewrite __init___split.
  rewrite _setup_crypto_new by exact Hnew.
  unfold new_vault, andthen, getpass. cbn [tty set_crypto set_conn]. rewrite Ht.
  cbn [tty set_tty]. rewrite decide_True by exact Hne.
  eexists. split; [reflexivity|]. now repeat split.
Qed.

(** The raises of [__init__] in this embedding are those of the prompt,
    of the comparison and encoding of the passphrase and of the hash
    check, which all come before the first write. *)
Lemma __init___raises (s s' : state) (e : exn) :
  __init__ s = (Raise e, s') -> same_files s s' /\ conn s' = None.
Proof.
  rewrite __init___split.
  set (s0 := set_crypto None (set_conn None s)).
  assert (F0 : same_files s s0) by now repeat split.
  assert (C0 : conn s0 = None) by reflexivity.
  destruct (db_file s0) as [t|] eqn:Ed; [destruct (salt_file s0) as [salt|] eqn:Es|].
  - rewrite (_setup_crypto_existing s0 t salt Ed Es).
    destruct (_setup_crypto_loop_files (tty s0) salt s0) as [F C].
    destruct (_setup_crypto_loop (tty s0) salt s0) as [[u|e0] s1]; cbn [snd] in F, C.
    + rewrite connect_init_db. discriminate.
    + intros [= _ <-]. split; [exact (same_files_trans _ _ _ F0 F) | congruence].
  - rewrite _setup_crypto_new by now right.
    destruct (new_vault s0) as [[u|e0] s1] eqn:En.
    + rewrite connect_init_db. discriminate.
    + intros [= _ <-]. apply new_vault_raises in En as [F C].
      split; [exact (same_files_trans _ _ _ F0 F) | congruence].
  - rewrite _setup_crypto_new by now left.
    destruct (new_vault s0) as [[u|e0] s1] eqn:En.
    + rewrite connect_init_db. discriminate.
    + intros [= _ <-]. apply new_vault_raises in En as [F C].
      split; [exact (same_files_trans _ _ _ F0 F) | congruence].
Qed.

(** X12: where there is no vault yet (the database file or the salt
    file is missing), opening fails unless the prompt gives twice the
    same passphrase with a UTF-8 encoding: with [EOFError] when there are
    fewer than two answers, with [ValueError("Пароли не совпадают")] when
    the two differ, and with [UnicodeEncodeError] from [password.encode()]
    when they are the same without an encoding. Each of these comes
    before the first write: the database, salt and hash files are what
    they were, and the object has neither key nor connection. *)
Theorem create_fails_before_writing (s : state) :
  db_file s = None \/ salt_file s = None ->
  (forall p rest, tty s = p :: p :: rest -> ~ scalar_str p) ->
  exists e s',
    __init__ s = (Raise e, s')
    /\ same_files s s' /\ crypto s' = None /\ conn s' = None
    /\ match tty s with
       | p :: p2 :: _ =>
           if decide (p = p2) then e = UnicodeEncodeError
           else e = ValueError "Пароли не совпадают"
       | _ => e = EOFError
       end.
Proof.
  intros Hnew Hbad. rewrite __init___split.
  rewrite _setup_crypto_new by exact Hnew.
  unfold new_vault, andthen, getpass. cbn [tty set_crypto set_conn].
  destruct (tty s) as [|p [|p2 rest]] eqn:Et; cbn [tty set_tty].
  - eexists _, _. split; [reflexivity|]. now repeat split.
  - eexists _, _. split; [reflexivity|]. now repeat split.
  - destruct (decide (p = p2)) as [<-|Hne].
    + rewrite decide_False by (intros H; now apply H).
      unfold AESEncryptor_new, andthen, get_random_bytes, lift, modify,
        AESEncryptor.__init__.
      destruct (str_encode p) as [pw|ex] eqn:Ep.
      * exfalso. apply (Hbad p rest eq_refl).
        exact (str_encode_Return_scalar p pw Ep).
      * destruct (str_encode_raises p ex Ep) as [-> _]. cbn.
        eexists _, _. split; [reflexivity|]. now repeat split.
    + rewrite decide_True by exact Hne.
      eexists _, _. split; [reflexivity|]. now repeat split.
Qed.

(** Opening an existing vault with an accepted answer after rejected ones. *)
Lemma reopen_run (s : state) (t : table) (salt : bytes) (h p : str) (pw : bytes)
    (wrongs rest : list str) :
  db_file s = Some t -> salt_file s = Some salt -> salt <> [] ->
  hash_file s = Some h -> tty s = wrongs ++ p :: rest ->
  Forall (rejected h) wrongs -> accepted h p pw ->
  exists s',
    __init__ s = (Return tt, s')
    /\ unlocked s' (derived pw salt) t
    /\ same_files s s' /\ tty s' = rest
    /\ entropy s' = entropy s /\ draws s' = draws s.
Proof.
  intros Hd Hs Hne Hh Ht Hw Ha. rewrite __init___split.
  set (s0 := set_crypto None (set_conn None s)).
  rewrite (_setup_crypto_existing s0 t salt Hd Hs).
  change (tty s0) with (tty s). rewrite Ht.
  destruct (_setup_crypto_loop_accepts wrongs rest h p pw salt s0 Hne Hh Hw Ha)
    as (s1 & -> & K & T & (F1 & F2 & F3) & C & E & D).
  rewrite connect_init_db. eexists. split; [reflexivity|].
  cbn in F1, F2, F3, E, D. rewrite F1, Hd. cbn.
  repeat split; cbn; congruence.
Qed.

(** X13: an existing vault opens on the first answer whose digest is the
    one in the hash file (spaces around it aside), after any number of
    answers that are refused: the object is then unlocked with the key
    derived from that answer and the stored salt, on the stored table,
    and the files are what they were. *)
Theorem reopen_first_accepted (s : state) (t : table) (salt : bytes) (h p : str)
    (pw : bytes) (wrongs rest : list str) :
  db_file s = Some t -> salt_file s = Some salt -> salt <> [] ->
  hash_file s = Some h -> tty s = wrongs ++ p :: rest ->
  Forall (rejected h) wrongs -> accepted h p pw ->
  exists s',
    __init__ s = (Return tt, s')
    /\ unlocked s' (derived pw salt) t
    /\ same_files s s' /\ tty s' = rest.
Proof.
  intros Hd Hs Hne Hh Ht Hw Ha.
  destruct (reopen_run s t salt h p pw wrongs rest Hd Hs Hne Hh Ht Hw Ha)
    as (s' & R & U & F & T & _).
  exists s'. auto.
Qed.

(** X14: when every answer is refused, an existing vault does not open:
    after the last answer [getpass] raises [EOFError]; the object has no
    connection and the files are what they were. *)
Theorem reopen_all_rejected (s : state) (t : table) (salt : bytes) (h : str) :
  db_file s = Some t -> salt_file s = Some salt -> salt <> [] ->
  hash_file s = Some h -> Forall (rejected h) (tty s) ->
  exists s',
    __init__ s = (Raise EOFError, s') /\ conn s' = None /\ same_files s s'.
Proof.
  intros Hd Hs Hne Hh Hw.
  destruct (__init__ s) as [r s'] eqn:E. exists s'.
  assert (r = Raise EOFError) as ->.
  { rewrite __init___split in E.
    set (s0 := set_crypto None (set_conn None s)) in E.
    rewrite (_setup_crypto_existing s0 t salt Hd Hs) in E.
    pose proof (_setup_crypto_loop_rejects (tty s0) h salt s0 Hne Hh Hw) as R.
    destruct (_setup_crypto_loop (tty s0) salt s0) as [r0 s1].
    cbn [fst] in R. subst r0. congruence. }
  split; [reflexivity|].
  apply __init___raises in E as [F C]. now split.
Qed.

Lemma get_any (s : state) (c : AESEncryptor.t) (t : table) (service : str) :
  unlocked s c t ->
  get service s =
    (match bind_parameters [service] with
     | Raise e => Raise e
     | Return _ =>
         match t !! service with
         | Some (enc_login, enc_password) =>
             do login <- AESEncryptor.decrypt c enc_login;
             do password <- AESEncryptor.decrypt c enc_password;
             Return (Some (login, password))
         | None => Return None
         end
     end, s).
Proof.
  intros (Hk & Hc & Hd). unfold get, andthen, cursor_execute. rewrite Hc, Hd.
  destruct (bind_parameters [service]); [|reflexivity].
  cbn [from_option id]. rewrite (PasswordStorageFacts.set_db_file_same s t Hd).
  destruct (t !! service) as [[el ep]|]; [|reflexivity].
  unfold self_crypto, lift, ret. rewrite Hk.
  destruct (AESEncryptor.decrypt c el); cbn [bind]; [|reflexivity].
  now destruct (AESEncryptor.decrypt c ep).
Qed.

Lemma list_all_run (s : state) (t : table) :
  conn s = Some Connected -> db_file s = Some t ->
  list_all s = (Return (merge_sort str_le (map_to_list t).*1), s).
Proof.
  intros Hc Hd. unfold list_all.
  rewrite (PasswordStorageFacts.cursor_execute_ok _ _ s t Hc Hd) by constructor.
  cbn [fst snd]. now rewrite PasswordStorageFacts.set_db_file_same.
Qed.

Lemma elem_of_sorted_keys (t : table) (service : str) :
  service ∈ merge_sort str_le (map_to_list t).*1 <-> is_Some (t !! service).
Proof.
  rewrite merge_sort_Permutation, list_elem_of_fmap. split.
  - intros ([k v] & -> & Hin). apply elem_of_map_to_list in Hin. eauto.
  - intros [[l p] Hl]. exists (service, (l, p)). split; [reflexivity|].
    now apply elem_of_map_to_list.
Qed.

(** X15: a pair saved in an unlocked vault is there after the vault is
    closed and opened again: when the key of the vault is the one derived
    from a passphrase and the stored salt, and the passphrase is entered
    at the prompt (after any refused answers), [get] returns the login
    and the password that were saved. *)
Theorem saved_pair_survives_reopen (s : state) (t : table) (salt : bytes)
    (h p : str) (pw : bytes) (wrongs rest : list str)
    (service login password : str) :
  gcm_tag_16 L -> (forall i, length (entropy s i) = 16%nat) ->
  unlocked s (derived pw salt) t ->
  salt_file s = Some salt -> salt <> [] ->
  hash_file s = Some h -> accepted h p pw -> Forall (rejected h) wrongs ->
  scalar_str service -> scalar_str login -> scalar_str password ->
  exists s1 s2 s3,
    save service login password s = (Return tt, s1)
    /\ close s1 = (Return tt, s2)
    /\ __init__ (set_tty (wrongs ++ p :: rest) s2) = (Return tt, s3)
    /\ get service s3 = (Return (Some (login, password)), s3).
Proof.
  intros Ht He Hu Hsf Hne Hh Ha Hw Hs Hl Hp.
  destruct (str_encode_scalar _ Hl) as [bl El].
  destruct (str_encode_scalar _ Hp) as [bp Ep].
  pose proof (str_encode_scalar _ Hs) as Hs'.
  pose proof (PasswordStorageFacts.save_run s (derived pw salt) t service login
                password bl bp Hu (He _) (He _) Hs' El Ep) as R1.
  set (t1 := <[service := _]> t) in R1.
  set (s1 := set_db_file (Some t1) _) in R1.
  set (s2 := set_conn (Some ClosedConnection) s1).
  assert (R2 : close s1 = (Return tt, s2)).
  { unfold close. destruct Hu as (_ & Hc & _).
    assert (conn s1 = Some Connected) as -> by exact Hc. reflexivity. }
  destruct (reopen_run (set_tty (wrongs ++ p :: rest) s2) t1 salt h p pw wrongs rest)
    as (s3 & R3 & U3 & _); try assumption; try reflexivity.
  exists s1, s2, s3. split; [exact R1|]. split; [exact R2|]. split; [exact R3|].
  rewrite (PasswordStorageFacts.get_run s3 (derived pw salt) t1 service U3 Hs').
  unfold t1 at 1. rewrite lookup_insert_eq.
  rewrite !decrypt_encoded_field by (try exact Ht; exact (He _)).
  now rewrite (bytes_decode_str_encode _ _ El), (bytes_decode_str_encode _ _ Ep).
Qed.

(** X16: in an unlocked vault [delete] of a stored service returns and
    removes its row: afterwards [get] of the service returns [None] and
    [list_all] does not list it, while [get] of any other service gives
    what it gave before. *)
Theorem delete_removes (s : state) (c : AESEncryptor.t) (t : table)
    (service : str) :
  unlocked s c t -> scalar_str service ->
  exists s',
    delete service s = (Return tt, s')
    /\ unlocked s' c (base.delete service t)
    /\ get service s' = (Return None, s')
    /\ (exists names, list_all s' = (Return names, s') /\ service ∉ names)
    /\ (forall other, other <> service -> (get other s').1 = (get other s).1).
Proof.
  intros Hu Hs. pose proof Hu as (Hk & Hc & Hd).
  pose proof (str_encode_scalar _ Hs) as Hs'.
  set (s' := set_db_file (Some (base.delete service t)) s).
  assert (Hu' : unlocked s' c (base.delete service t)) by now repeat split.
  exists s'. split.
  { unfold delete, andthen.
    rewrite (PasswordStorageFacts.cursor_execute_ok _ _ s t Hc Hd)
      by (repeat constructor; exact Hs').
    cbn [fst snd]. fold s'. unfold conn_commit.
    destruct Hu' as (_ & -> & _). reflexivity. }
  split; [exact Hu'|]. split.
  { rewrite (PasswordStorageFacts.get_run s' c _ service Hu' Hs').
    now rewrite lookup_delete_eq. }
  split.
  { eexists. split; [apply list_all_run; apply Hu'|].
    rewrite elem_of_sorted_keys, lookup_delete_eq. now intros [x Hx]. }
  intros other Hne.
  rewrite (get_any s' c _ other Hu'), (get_any s c t other Hu). cbn [fst].
  now rewrite lookup_delete_ne by congruence.
Qed.

(** X17: [delete] of a service that is not stored raises nothing and
    leaves the state exactly as it was. *)
Theorem delete_absent_unchanged (s : state) (c : AESEncryptor.t) (t : table)
    (service : str) :
  unlocked s c t -> scalar_str service -> t !! service = None ->
  delete service s = (Return tt, s).
Proof.
  intros (Hk & Hc & Hd) Hs Hn. pose proof (str_encode_scalar _ Hs) as Hs'.
  unfold delete, andthen.
  rewrite (PasswordStorageFacts.cursor_execute_ok _ _ s t Hc Hd)
    by (repeat constructor; exact Hs').
  cbn [fst snd]. rewrite (delete_id t service Hn).
  rewrite (PasswordStorageFacts.set_db_file_same s t Hd).
  unfold conn_commit. now rewrite Hc.
Qed.

(** A [save] that returns has put one row and drawn two nonces. *)
Lemma save_inv (s s1 : state) (c : AESEncryptor.t) (t : table)
    (service login password : str) :
  unlocked s c t ->
  save service login password s = (Return tt, s1) ->
  exists row,
    s1 = set_db_file (Some (<[service := row]> t)) (set_draws (S (S (draws s))) s).
Proof.
  intros (Hk & Hc & Hd) Hsave.
  unfold save, andthen, self_crypto, get_random_bytes, lift in Hsave.
  rewrite Hk in Hsave. cbn [entropy draws set_draws] in Hsave.
  destruct (AESEncryptor.encrypt c (entropy s (draws s)) login) as [el|];
    [|discriminate].
  destruct (AESEncryptor.encrypt c (entropy s (S (draws s))) password) as [ep|];
    [|discriminate].
  unfold cursor_execute in Hsave. cbn [conn set_draws db_file] in Hsave.
  rewrite Hc, Hd in Hsave.
  destruct (bind_parameters [service; el; ep]); [|discriminate].
  cbn [from_option id] in Hsave. unfold conn_commit in Hsave.
  cbn [conn set_db_file set_draws] in Hsave. rewrite Hc in Hsave.
  exists (el, ep). injection Hsave as <-. reflexivity.
Qed.

(** X18: a [save] for one service leaves the rows of the others alone:
    [get] of any other service gives afterwards what it gave before. *)
Theorem save_keeps_other_rows (s s1 : state) (c : AESEncryptor.t) (t : table)
    (service login password other : str) :
  unlocked s c t ->
  save service login password s = (Return tt, s1) ->
  other <> service ->
  (get other s1).1 = (get other s).1.
Proof.
  intros Hu Hsave Hne. pose proof Hu as (Hk & Hc & Hd).
  destruct (save_inv s s1 c t service login password Hu Hsave) as [row ->].
  assert (Hu1 : unlocked
                  (set_db_file (Some (<[service:=row]> t))
                     (set_draws (S (S (draws s))) s)) c
                  (<[service:=row]> t)) by now repeat split.
  rewrite (get_any _ c _ other Hu1), (get_any s c t other Hu). cbn [fst].
  now rewrite lookup_insert_ne by congruence.
Qed.

(** X19: after a [save], [list_all] lists the saved service and the
    services it listed before, and no other. *)
Theorem list_all_after_save (s s1 : state) (c : AESEncryptor.t) (t : table)
    (service login password : str) :
  unlocked s c t ->
  save service login password s = (Return tt, s1) ->
  exists names names1,
    list_all s = (Return names, s)
    /\ list_all s1 = (Return names1, s1)
    /\ (forall n, n ∈ names1 <-> n = service \/ n ∈ names).
Proof.
  intros Hu Hsave. pose proof Hu as (Hk & Hc & Hd).
  destruct (save_inv s s1 c t service login password Hu Hsave) as [row ->].
  eexists _, _. split; [apply (list_all_run s t Hc Hd)|].
  split; [apply list_all_run; [exact Hc | reflexivity]|].
  intros n. rewrite !elem_of_sorted_keys, lookup_insert_is_Some.
  split; [intros [->|[_ H]]; auto | intros [->|H]; [now left|]].
  destruct (decide (service = n)) as [->|]; [now left | now right].
Qed.

(** X20: once the connection is closed, [delete] and [save] raise
    [sqlite3.ProgrammingError] and write nothing, while a second [close]
    returns and changes nothing. *)
Theorem closed_vault_refuses (s : state) (c : AESEncryptor.t)
    (service login password : str) :
  conn s = Some ClosedConnection -> crypto s = Some c ->
  length (entropy s (draws s)) = 16%nat ->
  length (entropy s (S (draws s))) = 16%nat ->
  scalar_str login -> scalar_str password ->
  delete service s = (Raise sqlite3_ProgrammingError, s)
  /\ (exists s', save service login password s = (Raise sqlite3_ProgrammingError, s')
                 /\ same_files s s')
  /\ close s = (Return tt, s).
Proof.
  intros Hc Hk H1 H2 [bl El]%str_encode_scalar [bp Ep]%str_encode_scalar.
  repeat split.
  - unfold delete, andthen, cursor_execute. now rewrite Hc.
  - unfold save, andthen, self_crypto, get_random_bytes, lift. rewrite Hk.
    cbn [entropy draws set_draws].
    rewrite (encrypt_eq c _ login bl H1 El), (encrypt_eq c _ password bp H2 Ep).
    unfold cursor_execute. cbn [conn set_draws]. rewrite Hc.
    eexists. split; [reflexivity|]. now repeat split.
  - unfold close. rewrite Hc. f_equal. destruct s. cbn in *. now subst.
Qed.
End Methods.
End PasswordStorageMore.

(** * Properties of [LogStorage] *)

Lemma bind_parameters_raises (params : list str) (e : exn) :
  PasswordStorage.bind_parameters params = Raise e ->
  e = UnicodeEncodeError /\ ~ Forall scalar_str params.
Proof.
  induction params as [|p params IH]; cbn [PasswordStorage.bind_parameters];
    [discriminate|].
  destruct (str_encode p) as [b|e'] eqn:Ep; cbn [bind].
  - destruct (PasswordStorage.bind_parameters params) as [bs|e'']; cbn [bind];
      [discriminate|].
    intros [= <-]. destruct (IH eq_refl) as [-> Hn].
    split; [reflexivity|]. intros H. apply Hn. now inversion H.
  - intros [= <-]. destruct (str_encode_raises p e' Ep) as [-> Hn].
    split; [reflexivity|]. intros H. apply Hn. now inversion H.
Qed.

Module LogStorageFacts.
Import LogStorage.

Lemma log_run (action service : str) (s : state) :
  conn s = PasswordStorage.Connected ->
  scalar_str (clock s (ticks s)) -> scalar_str action -> scalar_str service ->
  log action service s
  = (Return tt,
     mkState PasswordStorage.Connected
       (rows s ++ [(clock s (ticks s), action, service)]) (clock s) (S (ticks s))).
Proof.
  intros Hc Ht Ha Hs. unfold log. cbn [conn rows clock ticks]. rewrite Hc.
  destruct (PasswordStorage.bind_parameters
              [clock s (ticks s); action; service]) as [bs|e] eqn:Eb;
    [reflexivity|].
  destruct (bind_parameters_raises _ _ Eb) as [_ Hn].
  exfalso. apply Hn. repeat constructor; assumption.
Qed.

(** X21: a call of [log] that raises adds no row: on a closed connection
    it raises [sqlite3.ProgrammingError], on an open one
    [UnicodeEncodeError] for a timestamp, an action or a service that has
    no UTF-8 encoding. The clock has been read all the same. *)
Theorem log_raises_adds_no_row (action service : str) (s s' : state) (e : exn) :
  log action service s = (Raise e, s') ->
  rows s' = rows s /\ conn s' = conn s /\ ticks s' = S (ticks s)
  /\ (conn s = PasswordStorage.ClosedConnection /\ e = sqlite3_ProgrammingError
      \/ conn s = PasswordStorage.Connected /\ e = UnicodeEncodeError
         /\ ~ (scalar_str (clock s (ticks s)) /\ scalar_str action
               /\ scalar_str service)).
Proof.
  unfold log. cbn [conn rows clock ticks].
  destruct (conn s) eqn:Ec.
  - destruct (PasswordStorage.bind_parameters
                [clock s (ticks s); action; service]) as [bs|e'] eqn:Eb;
      [discriminate|].
    intros [= <- <-]. cbn. repeat split; try assumption.
    right. destruct (bind_parameters_raises _ _ Eb) as [-> Hn].
    repeat split. intros (H1 & H2 & H3). apply Hn. repeat constructor; assumption.
  - intros [= <- <-]. cbn. repeat split; try assumption. now left.
Qed.

(** X22: events logged one after the other on an open connection are
    appended in their order, after the rows that were there, each with
    the reading of the clock at its call. *)
Theorem log_all_appends (events : list (str * str)) (s : state) :
  conn s = PasswordStorage.Connected ->
  (forall i, scalar_str (clock s i)) ->
  Forall (fun event => scalar_str event.1 /\ scalar_str event.2) events ->
  exists s',
    log_all events s = (Return tt, s')
    /\ rows s' = rows s ++ imap (logged s) events
    /\ ticks s' = (ticks s + length events)%nat
    /\ conn s' = PasswordStorage.Connected.
Proof.
  intros Hc Hk He. revert s Hc Hk.
  induction He as [|[action service] events [Ha Hs] _ IH]; intros s Hc Hk.
  - exists s. cbn. rewrite app_nil_r, Nat.add_0_r. now repeat split.
  - cbn [log_all]. rewrite (log_run action service s Hc (Hk _) Ha Hs).
    destruct (IH (mkState PasswordStorage.Connected
                    (rows s ++ [(clock s (ticks s), action, service)])
                    (clock s) (S (ticks s))) eq_refl Hk)
      as (s' & -> & Hr & Ht & Hc').
    exists s'. cbn [rows ticks clock conn] in *.
    split; [reflexivity|]. split; [|split; [cbn [length]; lia|exact Hc']].
    rewrite Hr, <- app_assoc. cbn [app imap]. f_equal.
    unfold logged at 2. cbn [fst snd]. rewrite Nat.add_0_r. f_equal.
    apply imap_ext. intros i [a sv] _. unfold logged, compose. cbn [clock ticks fst snd].
    now replace (S (ticks s) + i)%nat with (ticks s + S i)%nat by lia.
Qed.

End LogStorageFacts.

(** * Properties of [PasswordGenerator] *)

Lemma join_length (separator : str) (parts : list str) (n : nat) :
  Forall (fun p => length p = n) parts ->
  length (join separator parts)
  = (length parts * n + (length parts - 1) * length separator)%nat.
Proof.
  induction 1 as [|p parts Hp Hps IH]; [reflexivity|].
  destruct parts as [|q parts].
  - cbn. lia.
  - change (join separator (p :: q :: parts))
      with (p ++ separator ++ join separator (q :: parts)).
    rewrite !length_app, IH, Hp. cbn [length].
    replace (S (length parts) - 1)%nat with (length parts) by lia.
    replace (S (S (length parts)) - 1)%nat with (S (length parts)) by lia.
    cbn [Nat.mul]. lia.
Qed.

Lemma str_of_int_digit (d : Z) :
  (0 <= d < 10)%Z -> str_of_int d = [48 + Z.to_N d].
Proof.
  intros H.
  assert (E : (d = 0 \/ d = 1 \/ d = 2 \/ d = 3 \/ d = 4 \/ d = 5 \/ d = 6
               \/ d = 7 \/ d = 8 \/ d = 9)%Z) by lia.
  repeat (destruct E as [E | E]; [subst d; reflexivity|]). subst d. reflexivity.
Qed.

Lemma islower_upper (c : N) : islower c = true -> isupper (upper c) = true.
Proof.
  unfold upper, isupper. intros H. rewrite H. unfold islower in H.
  apply andb_true_iff in H as [H1 H2]. apply N.leb_le in H1, H2.
  apply andb_true_iff. split; apply N.leb_le; lia.
Qed.

Lemma islower_lower (c : N) : islower c = true -> lower c = c.
Proof.
  unfold lower, isupper, islower. intros H.
  apply andb_true_iff in H as [H1 H2]. apply N.leb_le in H1, H2.
  destruct (65 <=? c) eqn:E1; [|reflexivity]. cbn [andb].
  destruct (c <=? 90) eqn:E2; [|reflexivity]. apply N.leb_le in E2. lia.
Qed.

Lemma capitalize_lower (c : N) (body : str) :
  Forall (fun c => islower c = true) (c :: body) ->
  capitalize (c :: body) = upper c :: body.
Proof.
  intros H. apply Forall_cons in H as [_ Hb]. cbn [capitalize]. f_equal.
  induction Hb as [|x l Hx _ IH]; [reflexivity|].
  cbn [map]. rewrite (islower_lower x Hx). now f_equal.
Qed.

Module PasswordGeneratorFacts.
Import PasswordGenerator.

Lemma draws_only_refl (s : state) : draws_only s s.
Proof. now repeat split. Qed.

Lemma draws_only_trans (s1 s2 s3 : state) :
  draws_only s1 s2 -> draws_only s2 s3 -> draws_only s1 s3.
Proof.
  unfold draws_only. intros (? & ? & ?) (? & ? & ?).
  repeat split; [congruence|congruence|lia].
Qed.

Lemma randbelow_ok (n : Z) (s : state) :
  (0 < n)%Z ->
  exists i s', randbelow n s = (Ok i, s') /\ (0 <= i < n)%Z /\ draws_only s s'.
Proof.
  intros Hn. unfold randbelow.
  destruct (Z.leb_spec n 0) as [?|_]; [lia|].
  eexists _, _. split; [reflexivity|]. split; [apply Z.mod_pos_bound, Hn|].
  unfold draws_only. cbn. repeat split. lia.
Qed.

Lemma randbelow_raises (n : Z) (s : state) :
  (n <= 0)%Z ->
  randbelow n s = (Fail (Raised (ValueError "Upper bound must be positive.")), s).
Proof.
  intros Hn. unfold randbelow. now destruct (Z.leb_spec n 0) as [_|?]; [|lia].
Qed.

Lemma choice_ok {A : Type} (seq : list A) (s : state) :
  seq <> [] ->
  exists x s', choice seq s = (Ok x, s') /\ In x seq /\ draws_only s s'.
Proof.
  destruct seq as [|x0 seq']; [congruence|]. intros _.
  unfold choice, andthen.
  destruct (randbelow_ok (Z.of_nat (length (x0 :: seq'))) s) as (i & s' & -> & Hi & Hd).
  { cbn [length]. lia. }
  exists (nth (Z.to_nat i) (x0 :: seq') x0), s'. split; [reflexivity|].
  split; [|exact Hd]. apply nth_In. lia.
Qed.

Lemma choices_ok (n : nat) (charset : str) (s : state) :
  charset <> [] ->
  exists segment s',
    choices n charset s = (Ok segment, s')
    /\ length segment = n /\ Forall (fun c => In c charset) segment
    /\ draws_only s s'.
Proof.
  intros Hc. revert s. induction n as [|n IH]; intros s.
  - exists [], s. repeat split; [constructor|lia].
  - cbn [choices]. unfold andthen.
    destruct (choice_ok charset s Hc) as (c & s1 & -> & Hin & H1).
    destruct (IH s1) as (rest & s2 & -> & Hl & Hf & H2).
    exists (c :: rest), s2. split; [reflexivity|]. split; [cbn; lia|].
    split; [now constructor|]. exact (draws_only_trans _ _ _ H1 H2).
Qed.

Lemma ascii_letters_isalpha (c : N) : In c ascii_letters -> isalpha c = true.
Proof.
  assert (H : forallb isalpha ascii_letters = true) by (vm_compute; reflexivity).
  rewrite forallb_forall in H. apply H.
Qed.

Lemma consonants_islower (c : N) :
  In c (lit "bcdfghjklmnpqrstvwxyz") -> islower c = true.
Proof.
  assert (H : forallb islower (lit "bcdfghjklmnpqrstvwxyz") = true)
    by (vm_compute; reflexivity).
  rewrite forallb_forall in H. apply H.
Qed.

Lemma vowels_islower (c : N) : In c (lit "aeiou") -> islower c = true.
Proof.
  assert (H : forallb islower (lit "aeiou") = true) by (vm_compute; reflexivity).
  rewrite forallb_forall in H. apply H.
Qed.

(** The alphabet of the segments. *)
Lemma charset_segment (include_special : bool) (c : N) :
  In c (if include_special then ascii_letters ++ digits ++ punctuation
        else ascii_letters ++ digits) ->
  c ∈ ascii_letters ++ digits \/ include_special = true /\ c ∈ punctuation.
Proof.
  rewrite <- !list_elem_of_In. destruct include_special.
  - rewrite (assoc app), (elem_of_app (_ ++ _)). intros [?|?]; auto.
  - auto.
Qed.

(** The loop over the segments returns for a positive segment length,
    with as many segments as asked for, each of that length and with a
    letter. *)
Lemma segments_ok (n : nat) (segment_length : Z) (include_special : bool)
    (s : state) :
  (1 <= segment_length)%Z ->
  exists parts s',
    segments n segment_length
      (if include_special then ascii_letters ++ digits ++ punctuation
       else ascii_letters ++ digits) s = (Ok parts, s')
    /\ length parts = n
    /\ Forall (segment_ok include_special (Z.to_nat segment_length)) parts
    /\ draws_only s s'.
Proof.
  intros HL. set (charset := if include_special then _ else _).
  assert (Hc : charset <> []) by (subst charset; now destruct include_special).
  revert s. induction n as [|n IH]; intros s.
  - exists [], s. repeat split; [constructor|lia].
  - cbn [segments]. unfold andthen at 1.
    destruct (choices_ok (Z.to_nat segment_length) charset s Hc)
      as (seg & s1 & -> & Hl & Hf & H1).
    assert (Hseg : exists seg' s2,
      (if negb (existsb isalpha seg)
       then
         gen pos <- randbelow segment_length;
         gen letter <- choice ascii_letters;
         ret (take (Z.to_nat pos) seg ++ [letter]
              ++ drop (Z.to_nat (pos + 1)) seg)
       else ret seg) s1 = (Ok seg', s2)
      /\ segment_ok include_special (Z.to_nat segment_length) seg'
      /\ draws_only s1 s2).
    { assert (Hf' : Forall (fun c => c ∈ ascii_letters ++ digits
                        \/ include_special = true /\ c ∈ punctuation) seg).
      { eapply Forall_impl; [exact Hf|]. intros c. apply charset_segment. }
      destruct (existsb isalpha seg) eqn:Ea; cbn [negb].
      - exists seg, s1. split; [reflexivity|]. split; [|apply draws_only_refl].
        split; [exact Hl|]. split; [exact Hf'|].
        apply existsb_exists in Ea as (c & Hin & Hal).
        apply Exists_exists. exists c. split; [now apply list_elem_of_In|exact Hal].
      - unfold andthen.
        destruct (randbelow_ok segment_length s1) as (pos & s2 & -> & Hp & H2); [lia|].
        destruct (choice_ok ascii_letters s2) as (letter & s3 & -> & Hin & H3);
          [discriminate|].
        eexists _, s3. split; [reflexivity|].
        split; [|exact (draws_only_trans _ _ _ H2 H3)].
        split; [|split].
        + rewrite !length_app, length_take, length_drop. cbn [length]. lia.
        + apply Forall_app. split; [now apply Forall_take|].
          apply Forall_cons. split; [|now apply Forall_drop].
          left. apply elem_of_app. left. now apply list_elem_of_In.
        + apply Exists_app. right. apply Exists_cons_hd.
          now apply ascii_letters_isalpha. }
    destruct Hseg as (seg' & s2 & Es & Hok & H2).
    unfold andthen in Es |- *. rewrite Es.
    destruct (IH s2) as (rest & s3 & -> & Hlr & Hfr & H3).
    exists (seg' :: rest), s3. split; [reflexivity|]. split; [cbn; lia|].
    split; [now constructor|].
    exact (draws_only_trans _ _ _ H1 (draws_only_trans _ _ _ H2 H3)).
Qed.

Lemma _log_None (message tag : str) (s : state) :
  logs s = None -> _log message tag s = (Ok tt, s).
Proof. unfold _log. now intros ->. Qed.

(** X23: without a logger and for a segment length of one at least, the
    segmented generator returns the segments joined by the separator: as
    many as asked for, each of the length asked for, of letters and digits
    (and punctuation if asked for), and each with a letter. *)
Theorem segmented_shape (segment_length segments_amount : Z) (separator : str)
    (include_special : bool) (s : state) :
  (1 <= segment_length)%Z -> logs s = None ->
  exists parts s',
    generate_segmented_password segment_length segments_amount separator
      include_special s = (Ok (join separator parts), s')
    /\ length parts = Z.to_nat segments_amount
    /\ Forall (segment_ok include_special (Z.to_nat segment_length)) parts
    /\ draws_only s s'.
Proof.
  intros HL Hn. unfold generate_segmented_password, andthen.
  destruct (segments_ok (Z.to_nat segments_amount) segment_length
              include_special s HL) as (parts & s' & -> & Hl & Hf & Hd).
  rewrite _log_None by (destruct Hd as [-> _]; exact Hn).
  now exists parts, s'.
Qed.

(** X24: the length of a segmented password: the segments and the
    separators between them. *)
Theorem segmented_length (segment_length segments_amount : Z) (separator : str)
    (include_special : bool) (s : state) :
  (1 <= segment_length)%Z -> logs s = None ->
  exists password s',
    generate_segmented_password segment_length segments_amount separator
      include_special s = (Ok password, s')
    /\ length password
       = (Z.to_nat segments_amount * Z.to_nat segment_length
          + (Z.to_nat segments_amount - 1) * length separator)%nat.
Proof.
  intros HL Hn. unfold generate_segmented_password, andthen.
  destruct (segments_ok (Z.to_nat segments_amount) segment_length
              include_special s HL) as (parts & s' & -> & Hl & Hf & Hd).
  rewrite _log_None by (destruct Hd as [-> _]; exact Hn).
  exists (join separator parts), s'. split; [reflexivity|].
  rewrite <- Hl. apply join_length.
  eapply Forall_impl; [exact Hf|]. now intros seg [? _].
Qed.

(** X25: for a segment length of zero or less and one segment at least, the
    segmented generator raises the [ValueError] of [secrets.randbelow],
    before anything is drawn or logged. *)
Theorem segmented_no_length_raises (segment_length segments_amount : Z)
    (separator : str) (include_special : bool) (s : state) :
  (segment_length <= 0)%Z -> (1 <= segments_amount)%Z ->
  generate_segmented_password segment_length segments_amount separator
    include_special s
  = (Fail (Raised (ValueError "Upper bound must be positive.")), s).
Proof.
  intros HL Hn. unfold generate_segmented_password.
  destruct (Z.to_nat segments_amount) as [|n] eqn:En; [lia|].
  replace (Z.to_nat segment_length) with 0%nat by lia.
  unfold andthen at 1. cbn [segments]. unfold andthen at 1.
  replace (Z.to_nat segment_length) with 0%nat by lia.
  cbn [choices ret existsb negb]. unfold andthen at 1. unfold andthen at 1.
  now rewrite (randbelow_raises segment_length s HL).
Qed.

Lemma scalar_str_bytes (b : bytes) : scalar_str (map ord b).
Proof.
  induction b as [|x b IH]; [constructor|].
  constructor; [|exact IH].
  now destruct x.
Qed.

Lemma scalar_str_uint (d : Decimal.uint) : scalar_str (uint_str d).
Proof. induction d; cbn [uint_str]; constructor; try assumption; reflexivity. Qed.

Lemma scalar_str_of_int (n : Z) : scalar_str (str_of_int n).
Proof.
  unfold str_of_int. destruct (Z.to_int n).
  - apply scalar_str_uint.
  - constructor; [reflexivity|apply scalar_str_uint].
Qed.

Lemma scalar_str_app (a b : str) : scalar_str a -> scalar_str b -> scalar_str (a ++ b).
Proof. intros Ha Hb. apply Forall_app. now split. Qed.

Lemma _log_open (message tag : str) (s : state) (l : LogStorage.state) :
  logs s = Some l -> LogStorage.conn l = PasswordStorage.Connected ->
  scalar_str (LogStorage.clock l (LogStorage.ticks l)) ->
  scalar_str message -> scalar_str tag ->
  _log message tag s
  = (Ok tt,
     mkState
       (Some (LogStorage.mkState PasswordStorage.Connected
                (LogStorage.rows l
                 ++ [(LogStorage.clock l (LogStorage.ticks l), message, tag)])
                (LogStorage.clock l) (S (LogStorage.ticks l))))
       (raw s) (drawn s)).
Proof.
  intros Hl Hc Ht Hm Hg. unfold _log. rewrite Hl.
  now rewrite (LogStorageFacts.log_run message tag l Hc Ht Hm Hg).
Qed.

Lemma _log_closed (message tag : str) (s : state) (l : LogStorage.state) :
  logs s = Some l -> LogStorage.conn l = PasswordStorage.ClosedConnection ->
  exists l',
    _log message tag s
    = (Fail (Raised sqlite3_ProgrammingError), mkState (Some l') (raw s) (drawn s))
    /\ LogStorage.rows l' = LogStorage.rows l.
Proof.
  intros Hl Hc. unfold _log. rewrite Hl. unfold LogStorage.log.
  cbn [LogStorage.conn]. rewrite Hc. eexists. split; reflexivity.
Qed.

(** X26: with a logger whose connection is open, the segmented generator
    returns a password of the same shape and adds one row to the log: the
    reading of the clock, a message, and the service "generator". *)
Theorem segmented_logs_one_row (segment_length segments_amount : Z)
    (separator : str) (include_special : bool) (s : state)
    (l : LogStorage.state) :
  (1 <= segment_length)%Z -> logs s = Some l ->
  LogStorage.conn l = PasswordStorage.Connected ->
  scalar_str (LogStorage.clock l (LogStorage.ticks l)) ->
  scalar_str separator ->
  exists parts s' l' message,
    generate_segmented_password segment_length segments_amount separator
      include_special s = (Ok (join separator parts), s')
    /\ length parts = Z.to_nat segments_amount
    /\ Forall (segment_ok include_special (Z.to_nat segment_length)) parts
    /\ logs s' = Some l'
    /\ LogStorage.rows l'
       = LogStorage.rows l
         ++ [(LogStorage.clock l (LogStorage.ticks l), message, lit "generator")].
Proof.
  intros HL Hl Hc Ht Hsep. unfold generate_segmented_password, andthen.
  destruct (segments_ok (Z.to_nat segments_amount) segment_length
              include_special s HL) as (parts & s' & -> & Hn & Hf & Hd).
  destruct Hd as (Hd & _ & _). rewrite Hl in Hd.
  erewrite (_log_open _ _ s' l Hd Hc Ht).
  - eexists parts, _, _, _. split; [reflexivity|]. repeat split; assumption.
  - repeat apply scalar_str_app;
      try apply scalar_str_bytes; try apply scalar_str_of_int; try assumption;
      repeat constructor.
  - apply scalar_str_bytes.
Qed.

Lemma choice_consonant (s : state) :
  exists c s',
    choice (lit "bcdfghjklmnpqrstvwxyz") s = (Ok c, s')
    /\ islower c = true /\ draws_only s s'.
Proof.
  destruct (choice_ok (lit "bcdfghjklmnpqrstvwxyz") s) as (c & s' & E & Hin & Hd);
    [discriminate|].
  exists c, s'. split; [exact E|]. split; [now apply consonants_islower|exact Hd].
Qed.

(** An optional consonant appended to the password. *)
Lemma optional_consonant (b : bool) (password : str) (s : state) :
  exists more s',
    (if b then gen c <- choice (lit "bcdfghjklmnpqrstvwxyz"); ret (password ++ [c])
     else ret password) s = (Ok (password ++ more), s')
    /\ Forall (fun c => islower c = true) more /\ (length more <= 1)%nat
    /\ draws_only s s'.
Proof.
  destruct b.
  - unfold andthen. destruct (choice_consonant s) as (c & s' & -> & Hlow & Hd).
    exists [c], s'. split; [reflexivity|]. split; [now repeat constructor|].
    split; [cbn; lia|exact Hd].
  - exists [], s. rewrite app_nil_r. split; [reflexivity|].
    split; [constructor|]. split; [cbn; lia|apply draws_only_refl].
Qed.

(** The loop over the syllables appends lowercase letters to the
    password: between one and three for each syllable. *)
Lemma syllables_ok (n : nat) (password : str) (s : state) :
  exists body s',
    syllables n password s = (Ok (password ++ body), s')
    /\ Forall (fun c => islower c = true) body
    /\ (n <= length body <= 3 * n)%nat
    /\ draws_only s s'.
Proof.
  revert password s. induction n as [|n IH]; intros password s.
  - exists [], s. rewrite app_nil_r. split; [reflexivity|].
    split; [constructor|]. split; [cbn; lia|apply draws_only_refl].
  - cbn [syllables]. unfold andthen at 1.
    destruct (choice_ok [true; true; true; false] s) as (first & s1 & -> & _ & H1);
      [discriminate|].
    unfold andthen at 1.
    destruct (optional_consonant first password s1)
      as (pre & s2 & -> & Hpre & Hlpre & H2).
    unfold andthen at 1.
    destruct (choice_ok (lit "aeiou") s2) as (v & s3 & -> & Hv & H3);
      [discriminate|]. apply vowels_islower in Hv.
    unfold andthen at 1.
    destruct (choice_ok [true; false] s3) as (second & s4 & -> & _ & H4);
      [discriminate|].
    unfold andthen at 1.
    destruct (optional_consonant second ((password ++ pre) ++ [v]) s4)
      as (post & s5 & -> & Hpost & Hlpost & H5).
    destruct (IH (((password ++ pre) ++ [v]) ++ post) s5)
      as (body & s6 & -> & Hb & Hlb & H6).
    exists (pre ++ [v] ++ post ++ body), s6.
    split; [now rewrite <- !app_assoc|].
    split.
    { apply Forall_app. split; [exact Hpre|]. apply Forall_cons. split; [exact Hv|].
      apply Forall_app. now split. }
    split; [rewrite !length_app; cbn [length]; lia|].
    exact (draws_only_trans _ _ _ H1 (draws_only_trans _ _ _ H2
             (draws_only_trans _ _ _ H3 (draws_only_trans _ _ _ H4
                (draws_only_trans _ _ _ H5 H6))))).
Qed.

(** X27: without a logger and for one syllable at least, the readable
    generator returns a capital letter, then lowercase letters, then a
    digit: between one and three letters for each syllable. *)
Theorem readable_shape (syllable_count : Z) (s : state) :
  (1 <= syllable_count)%Z -> logs s = None ->
  exists u body d s',
    generate_readable_password syllable_count s = (Ok (u :: body ++ [d]), s')
    /\ isupper u = true
    /\ Forall (fun c => islower c = true) body
    /\ isdigit d = true
    /\ (Z.to_nat syllable_count <= 1 + length body <= 3 * Z.to_nat syllable_count)%nat
    /\ draws_only s s'.
Proof.
  intros Hn Hl. unfold generate_readable_password, andthen.
  destruct (syllables_ok (Z.to_nat syllable_count) [] s)
    as (body & s1 & -> & Hb & Hlb & H1).
  destruct (randbelow_ok 10 s1) as (d & s2 & -> & Hd & H2); [lia|].
  rewrite _log_None by (destruct H2 as [-> _]; destruct H1 as [-> _]; exact Hl).
  destruct body as [|c body]; [cbn [length] in Hlb; lia|].
  cbn [app]. rewrite (capitalize_lower c body Hb), (str_of_int_digit d Hd).
  apply Forall_cons in Hb as [Hc Hb].
  exists (upper c), body, (48 + Z.to_N d), s2.
  split; [reflexivity|]. split; [now apply islower_upper|]. split; [exact Hb|].
  split.
  { unfold isdigit. apply andb_true_iff. split; apply N.leb_le; lia. }
  split; [cbn [length] in Hlb; lia|exact (draws_only_trans _ _ _ H1 H2)].
Qed.

(** X28: with no syllable to make, the readable generator returns one
    digit and nothing else. *)
Theorem readable_no_syllable (syllable_count : Z) (s : state) :
  (syllable_count <= 0)%Z -> logs s = None ->
  exists d s',
    generate_readable_password syllable_count s = (Ok [d], s')
    /\ isdigit d = true /\ drawn s' = S (drawn s).
Proof.
  intros Hn Hl. unfold generate_readable_password, andthen.
  replace (Z.to_nat syllable_count) with 0%nat by lia. cbn [syllables ret].
  destruct (randbelow_ok 10 s) as (d & s2 & E & Hd & H2); [lia|].
  pose proof E as E'. unfold randbelow in E'. cbn in E'.
  injection E' as _ <-. rewrite E.
  rewrite _log_None by exact Hl.
  cbn [capitalize app]. rewrite (str_of_int_digit d Hd).
  exists (48 + Z.to_N d), (mkState (logs s) (raw s) (S (drawn s))).
  split; [reflexivity|]. split; [|reflexivity].
  unfold isdigit. apply andb_true_iff. split; apply N.leb_le; lia.
Qed.

(** X29: with a logger whose connection is closed, both generators raise
    [sqlite3.ProgrammingError] after the password is made, and it is lost;
    the log keeps its rows. *)
Theorem generators_closed_log_raise (segment_length segments_amount : Z)
    (separator : str) (include_special : bool) (syllable_count : Z)
    (s : state) (l : LogStorage.state) :
  (1 <= segment_length)%Z -> logs s = Some l ->
  LogStorage.conn l = PasswordStorage.ClosedConnection ->
  (exists s' l',
     generate_segmented_password segment_length segments_amount separator
       include_special s = (Fail (Raised sqlite3_ProgrammingError), s')
     /\ logs s' = Some l' /\ LogStorage.rows l' = LogStorage.rows l)
  /\ (exists s' l',
        generate_readable_password syllable_count s
        = (Fail (Raised sqlite3_ProgrammingError), s')
        /\ logs s' = Some l' /\ LogStorage.rows l' = LogStorage.rows l).
Proof.
  intros HL Hl Hc. split.
  - unfold generate_segmented_password, andthen.
    destruct (segments_ok (Z.to_nat segments_amount) segment_length
                include_special s HL) as (parts & s1 & -> & _ & _ & Hd).
    destruct Hd as (Hd & _ & _). rewrite Hl in Hd.
    edestruct (_log_closed) as (l' & -> & Hr); [exact Hd|exact Hc|].
    now exists (mkState (Some l') (raw s1) (drawn s1)), l'.
  - unfold generate_readable_password, andthen.
    destruct (syllables_ok (Z.to_nat syllable_count) [] s)
      as (body & s1 & -> & _ & _ & H1).
    destruct (randbelow_ok 10 s1) as (d & s2 & -> & _ & H2); [lia|].
    destruct H1 as (H1 & _ & _). destruct H2 as (H2 & _ & _).
    rewrite H1, Hl in H2.
    edestruct (_log_closed) as (l' & -> & Hr); [exact H2|exact Hc|].
    now exists (mkState (Some l') (raw s2) (drawn s2)), l'.
Qed.
End PasswordGeneratorFacts.

(** * The further properties on the small instance *)

Lemma encrypt_raises_witness :
  (scalar_str [104; 105] ->
   exists e,
     @AESEncryptor.encrypt sample_crypto sample_encryptor sample_nonce [104; 105]
     = Return e)
  /\ (~ scalar_str [104; 105] ->
      @AESEncryptor.encrypt sample_crypto sample_encryptor sample_nonce [104; 105]
      = Raise UnicodeEncodeError).
Proof.
  apply (@encrypt_raises sample_crypto sample_encryptor sample_nonce [104; 105]).
  reflexivity.
Defined.

Lemma decrypt_raises_ValueError_witness :
  @AESEncryptor.decrypt sample_crypto sample_encryptor (<[0%nat := 33]> sample_field)
  = Raise binascii_Error
  /\ is_ValueError binascii_Error = true.
Proof.
  split; [vm_compute; reflexivity|].
  apply (@decrypt_raises_ValueError sample_crypto sample_encryptor
           (<[0%nat := 33]> sample_field) binascii_Error).
  vm_compute. reflexivity.
Defined.

Lemma encrypt_output_shape_witness :
  exists pt,
    str_encode [104; 105] = Return pt
    /\ length sample_field = (4 * ((32 + length pt + 2) / 3))%nat
    /\ Forall base64_char sample_field.
Proof.
  apply (@encrypt_output_shape sample_crypto sample_encryptor sample_nonce
           [104; 105] sample_field).
  - exact sample_crypto_tag_16.
  - reflexivity.
  - vm_compute. reflexivity.
Defined.

Lemma encrypt_longer_than_text_witness :
  (length [104; 105] + 43 <= length sample_field)%nat /\ sample_field <> [104; 105].
Proof.
  apply (@encrypt_longer_than_text sample_crypto sample_encryptor sample_nonce
           [104; 105] sample_field).
  - exact sample_crypto_tag_16.
  - reflexivity.
  - vm_compute. reflexivity.
Defined.

Lemma encrypt_distinct_nonces_witness :
  sample_field
  <> @encoded_field sample_crypto sample_encryptor sample_nonce'
       (list_byte_of_string "hi").
Proof.
  apply (@encrypt_distinct_nonces sample_crypto sample_encryptor sample_encryptor
           sample_nonce sample_nonce' [104; 105] [104; 105]).
  - exact sample_crypto_tag_16.
  - reflexivity.
  - reflexivity.
  - vm_compute. reflexivity.
  - vm_compute. reflexivity.
  - vm_compute. discriminate.
Defined.

Lemma decrypt_wrong_key_witness :
  @AESEncryptor.decrypt sample_crypto other_encryptor sample_field
  = Raise (ValueError "MAC check failed").
Proof.
  apply (@decrypt_wrong_key sample_crypto sample_encryptor other_encryptor
           sample_nonce [104; 105] sample_field).
  - exact sample_crypto_tag_16.
  - reflexivity.
  - vm_compute. reflexivity.
  - intros pt H. vm_compute in H. injection H as <-. vm_compute. discriminate.
Defined.

Lemma decrypt_flipped_tag_byte_witness :
  @AESEncryptor.decrypt sample_crypto sample_encryptor
    (map ord
       (b64encode
          (sample_nonce
           ++ <[0%nat := "000"%byte]>
                (@gcm_tag sample_crypto (AESEncryptor.key sample_encryptor)
                   sample_nonce
                   (@gcm_crypt sample_crypto (AESEncryptor.key sample_encryptor)
                      sample_nonce (list_byte_of_string "hi")))
           ++ @gcm_crypt sample_crypto (AESEncryptor.key sample_encryptor)
                sample_nonce (list_byte_of_string "hi"))))
  = Raise (ValueError "MAC check failed").
Proof.
  apply (@decrypt_flipped_tag_byte sample_crypto sample_encryptor sample_nonce
           (list_byte_of_string "hi") 0 "000"%byte).
  - exact sample_crypto_tag_16.
  - reflexivity.
  - lia.
  - vm_compute. discriminate.
Defined.

Lemma decrypt_padding_bits_witness :
  exists i x,
    (i < length sample_field)%nat /\ sample_field !! i <> Some x
    /\ @AESEncryptor.decrypt sample_crypto sample_encryptor (<[i:=x]> sample_field)
       = Return [104; 105].
Proof.
  apply (@decrypt_padding_bits sample_crypto sample_encryptor sample_nonce
           [104; 105] sample_field).
  - exact sample_crypto_tag_16.
  - reflexivity.
  - vm_compute. reflexivity.
  - intros pt H. vm_compute in H. injection H as <-. vm_compute. discriminate.
Defined.

Lemma decrypt_trailing_skipped_witness :
  @AESEncryptor.decrypt sample_crypto sample_encryptor
    (sample_field ++ map ord (list_byte_of_string "! "))
  = Return [104; 105].
Proof.
  apply (@decrypt_trailing_skipped sample_crypto sample_encryptor sample_nonce
           [104; 105] sample_field (list_byte_of_string "! ")).
  - exact sample_crypto_tag_16.
  - reflexivity.
  - vm_compute. reflexivity.
  - repeat constructor.
  - repeat constructor.
Defined.

Lemma create_vault_unlocks_witness :
  exists s',
    @PasswordStorage.__init__ sample_crypto
      (no_vault sample_salt [sample_passphrase; sample_passphrase])
    = (Return tt, s')
    /\ unlocked s'
         (@PasswordStorageParts.derived sample_crypto (list_byte_of_string "p@ss")
            sample_salt) ∅
    /\ PasswordStorage.salt_file s' = Some sample_salt
    /\ PasswordStorage.hash_file s'
       = Some (@sha256_hexdigest sample_crypto (list_byte_of_string "p@ss"))
    /\ PasswordStorage.tty s' = [].
Proof.
  apply (@PasswordStorageMore.create_vault_unlocks sample_crypto
           (no_vault sample_salt [sample_passphrase; sample_passphrase])
           sample_passphrase (list_byte_of_string "p@ss") []).
  - now left.
  - reflexivity.
  - vm_compute. reflexivity.
Defined.

Lemma create_mismatch_witness :
  exists s',
    @PasswordStorage.__init__ sample_crypto
      (no_vault sample_salt [sample_passphrase; wrong])
    = (Raise (ValueError "Пароли не совпадают"), s')
    /\ PasswordStorageParts.same_files
         (no_vault sample_salt [sample_passphrase; wrong]) s'
    /\ PasswordStorage.crypto s' = None /\ PasswordStorage.conn s' = None.
Proof.
  apply (@PasswordStorageMore.create_mismatch sample_crypto
           (no_vault sample_salt [sample_passphrase; wrong])
           sample_passphrase wrong []).
  - now left.
  - reflexivity.
  - discriminate.
Defined.

Lemma create_fails_before_writing_witness :
  exists e s',
    @PasswordStorage.__init__ sample_crypto
      (no_vault sample_salt [[55296]; [55296]])
    = (Raise e, s')
    /\ PasswordStorageParts.same_files (no_vault sample_salt [[55296]; [55296]]) s'
    /\ PasswordStorage.crypto s' = None /\ PasswordStorage.conn s' = None
    /\ e = UnicodeEncodeError.
Proof.
  apply (@PasswordStorageMore.create_fails_before_writing sample_crypto
           (no_vault sample_salt [[55296]; [55296]])).
  - now left.
  - intros p rest E Hs. injection E as <- _.
    apply Forall_cons in Hs as [Hs _]. vm_compute in Hs. discriminate Hs.
Defined.

Lemma reopen_first_accepted_witness :
  exists s',
    @PasswordStorage.__init__ sample_crypto
      (PasswordStorage.set_tty [wrong; sample_passphrase] sample_vault)
    = (Return tt, s')
    /\ unlocked s'
         (@PasswordStorageParts.derived sample_crypto (list_byte_of_string "p@ss")
            sample_salt) sample_table
    /\ PasswordStorageParts.same_files
         (PasswordStorage.set_tty [wrong; sample_passphrase] sample_vault) s'
    /\ PasswordStorage.tty s' = [].
Proof.
  apply (@PasswordStorageMore.reopen_first_accepted sample_crypto
           (PasswordStorage.set_tty [wrong; sample_passphrase] sample_vault)
           sample_table sample_salt
           (@sha256_hexdigest sample_crypto (list_byte_of_string "p@ss"))
           sample_passphrase (list_byte_of_string "p@ss") [wrong] []).
  - reflexivity.
  - reflexivity.
  - discriminate.
  - reflexivity.
  - reflexivity.
  - constructor; [|constructor].
    intros pw H. vm_compute in H. injection H as <-. vm_compute. discriminate.
  - split; vm_compute; reflexivity.
Defined.

Lemma reopen_all_rejected_witness :
  exists s',
    @PasswordStorage.__init__ sample_crypto
      (PasswordStorage.set_tty [wrong] sample_vault)
    = (Raise EOFError, s')
    /\ PasswordStorage.conn s' = None
    /\ PasswordStorageParts.same_files
         (PasswordStorage.set_tty [wrong] sample_vault) s'.
Proof.
  apply (@PasswordStorageMore.reopen_all_rejected sample_crypto
           (PasswordStorage.set_tty [wrong] sample_vault)
           sample_table sample_salt
           (@sha256_hexdigest sample_crypto (list_byte_of_string "p@ss"))).
  - reflexivity.
  - reflexivity.
  - discriminate.
  - reflexivity.
  - constructor; [|constructor].
    intros pw H. vm_compute in H. injection H as <-. vm_compute. discriminate.
Defined.

Lemma saved_pair_survives_reopen_witness :
  exists s1 s2 s3,
    @PasswordStorage.save sample_crypto [120] bob secret2 sample_vault
    = (Return tt, s1)
    /\ PasswordStorage.close s1 = (Return tt, s2)
    /\ @PasswordStorage.__init__ sample_crypto
         (PasswordStorage.set_tty ([wrong] ++ sample_passphrase :: []) s2)
       = (Return tt, s3)
    /\ @PasswordStorage.get sample_crypto [120] s3
       = (Return (Some (bob, secret2)), s3).
Proof.
  apply (@PasswordStorageMore.saved_pair_survives_reopen sample_crypto
           sample_vault sample_table sample_salt
           (@sha256_hexdigest sample_crypto (list_byte_of_string "p@ss"))
           sample_passphrase (list_byte_of_string "p@ss") [wrong] []
           [120] bob secret2).
  - exact sample_crypto_tag_16.
  - exact sample_entropy_16.
  - exact sample_vault_unlocked.
  - reflexivity.
  - discriminate.
  - reflexivity.
  - split; vm_compute; reflexivity.
  - constructor; [|constructor].
    intros pw H. vm_compute in H. injection H as <-. vm_compute. discriminate.
  - repeat constructor.
  - repeat constructor.
  - repeat constructor.
Defined.

Lemma delete_removes_witness :
  exists s',
    PasswordStorage.delete github sample_vault = (Return tt, s')
    /\ unlocked s' sample_encryptor (base.delete github sample_table)
    /\ @PasswordStorage.get sample_crypto github s' = (Return None, s')
    /\ (exists names,
          PasswordStorage.list_all s' = (Return names, s') /\ github ∉ names)
    /\ (forall other, other <> github ->
          (@PasswordStorage.get sample_crypto other s').1
          = (@PasswordStorage.get sample_crypto other sample_vault).1).
Proof.
  apply (@PasswordStorageMore.delete_removes sample_crypto sample_vault
           sample_encryptor sample_table github).
  - exact sample_vault_unlocked.
  - repeat constructor.
Defined.

Lemma delete_absent_unchanged_witness :
  PasswordStorage.delete [120] sample_vault = (Return tt, sample_vault).
Proof.
  apply (PasswordStorageMore.delete_absent_unchanged sample_vault
           sample_encryptor sample_table [120]).
  - exact sample_vault_unlocked.
  - repeat constructor.
  - vm_compute. reflexivity.
Defined.

Lemma save_keeps_other_rows_witness :
  (@PasswordStorage.get sample_crypto github
     (after (@PasswordStorage.save sample_crypto [120] bob secret2) sample_vault)).1
  = (@PasswordStorage.get sample_crypto github sample_vault).1.
Proof.
  apply (@PasswordStorageMore.save_keeps_other_rows sample_crypto sample_vault
           (after (@PasswordStorage.save sample_crypto [120] bob secret2) sample_vault)
           sample_encryptor sample_table [120] bob secret2 github).
  - exact sample_vault_unlocked.
  - vm_compute. reflexivity.
  - discriminate.
Defined.

Lemma list_all_after_save_witness :
  exists names names1,
    PasswordStorage.list_all sample_vault = (Return names, sample_vault)
    /\ PasswordStorage.list_all
         (after (@PasswordStorage.save sample_crypto [120] bob secret2) sample_vault)
       = (Return names1,
          after (@PasswordStorage.save sample_crypto [120] bob secret2) sample_vault)
    /\ (forall n, n ∈ names1 <-> n = [120] \/ n ∈ names).
Proof.
  apply (@PasswordStorageMore.list_all_after_save sample_crypto sample_vault
           (after (@PasswordStorage.save sample_crypto [120] bob secret2) sample_vault)
           sample_encryptor sample_table [120] bob secret2).
  - exact sample_vault_unlocked.
  - vm_compute. reflexivity.
Defined.

Lemma closed_vault_refuses_witness :
  PasswordStorage.delete github (after PasswordStorage.close sample_vault)
  = (Raise sqlite3_ProgrammingError, after PasswordStorage.close sample_vault)
  /\ (exists s',
        @PasswordStorage.save sample_crypto github bob secret2
          (after PasswordStorage.close sample_vault)
        = (Raise sqlite3_ProgrammingError, s')
        /\ PasswordStorageParts.same_files
             (after PasswordStorage.close sample_vault) s')
  /\ PasswordStorage.close (after PasswordStorage.close sample_vault)
     = (Return tt, after PasswordStorage.close sample_vault).
Proof.
  apply (@PasswordStorageMore.closed_vault_refuses sample_crypto
           (after PasswordStorage.close sample_vault) sample_encryptor
           github bob secret2).
  - reflexivity.
  - reflexivity.
  - reflexivity.
  - reflexivity.
  - repeat constructor.
  - repeat constructor.
Defined.

Lemma sample_clock_scalar (i : nat) : scalar_str (sample_clock i).
Proof.
  apply Forall_app. split.
  - apply PasswordGeneratorFacts.scalar_str_bytes.
  - apply PasswordGeneratorFacts.scalar_str_of_int.
Qed.

Lemma log_raises_adds_no_row_witness :
  let s := (LogStorage.close sample_log).2 in
  let s' := (LogStorage.log (lit "save_password") github s).2 in
  LogStorage.rows s' = LogStorage.rows s
  /\ LogStorage.conn s' = LogStorage.conn s
  /\ LogStorage.ticks s' = S (LogStorage.ticks s)
  /\ (LogStorage.conn s = PasswordStorage.ClosedConnection
      /\ sqlite3_ProgrammingError = sqlite3_ProgrammingError
      \/ LogStorage.conn s = PasswordStorage.Connected
         /\ sqlite3_ProgrammingError = UnicodeEncodeError
         /\ ~ (scalar_str (LogStorage.clock s (LogStorage.ticks s))
               /\ scalar_str (lit "save_password") /\ scalar_str github)).
Proof.
  apply (LogStorageFacts.log_raises_adds_no_row (lit "save_password") github
           (LogStorage.close sample_log).2
           (LogStorage.log (lit "save_password") github
              (LogStorage.close sample_log).2).2
           sqlite3_ProgrammingError).
  reflexivity.
Defined.

Lemma log_all_appends_witness :
  exists s',
    log_all [(lit "save_password", github); (lit "get_password", github)] sample_log
    = (Return tt, s')
    /\ LogStorage.rows s'
       = LogStorage.rows sample_log
         ++ imap (logged sample_log)
              [(lit "save_password", github); (lit "get_password", github)]
    /\ LogStorage.ticks s' = (LogStorage.ticks sample_log + 2)%nat
    /\ LogStorage.conn s' = PasswordStorage.Connected.
Proof.
  apply (LogStorageFacts.log_all_appends
           [(lit "save_password", github); (lit "get_password", github)] sample_log).
  - reflexivity.
  - exact sample_clock_scalar.
  - repeat constructor.
Defined.

Lemma segmented_shape_witness :
  exists parts s',
    PasswordGenerator.generate_segmented_password 4 3 (lit "-") false
      sample_generator = (PasswordGenerator.Ok (join (lit "-") parts), s')
    /\ length parts = Z.to_nat 3
    /\ Forall (segment_ok false (Z.to_nat 4)) parts
    /\ draws_only sample_generator s'.
Proof.
  apply (PasswordGeneratorFacts.segmented_shape 4 3 (lit "-") false sample_generator).
  - lia.
  - reflexivity.
Defined.

Lemma segmented_length_witness :
  exists password s',
    PasswordGenerator.generate_segmented_password 4 3 (lit "-") false
      sample_generator = (PasswordGenerator.Ok password, s')
    /\ length password
       = (Z.to_nat 3 * Z.to_nat 4 + (Z.to_nat 3 - 1) * length (lit "-"))%nat.
Proof.
  apply (PasswordGeneratorFacts.segmented_length 4 3 (lit "-") false sample_generator).
  - lia.
  - reflexivity.
Defined.

Lemma segmented_no_length_raises_witness :
  PasswordGenerator.generate_segmented_password 0 3 (lit "-") false
    logging_generator
  = (PasswordGenerator.Fail
       (PasswordGenerator.Raised (ValueError "Upper bound must be positive.")),
     logging_generator).
Proof.
  apply (PasswordGeneratorFacts.segmented_no_length_raises 0 3 (lit "-") false
           logging_generator); lia.
Defined.

Lemma segmented_logs_one_row_witness :
  exists parts s' l' message,
    PasswordGenerator.generate_segmented_password 4 3 (lit "-") true
      logging_generator = (PasswordGenerator.Ok (join (lit "-") parts), s')
    /\ length parts = Z.to_nat 3
    /\ Forall (segment_ok true (Z.to_nat 4)) parts
    /\ PasswordGenerator.logs s' = Some l'
    /\ LogStorage.rows l'
       = LogStorage.rows sample_log
         ++ [(LogStorage.clock sample_log (LogStorage.ticks sample_log), message,
              lit "generator")].
Proof.
  apply (PasswordGeneratorFacts.segmented_logs_one_row 4 3 (lit "-") true
           logging_generator sample_log).
  - lia.
  - reflexivity.
  - reflexivity.
  - apply sample_clock_scalar.
  - repeat constructor.
Defined.

Lemma readable_shape_witness :
  exists u body d s',
    PasswordGenerator.generate_readable_password 4 sample_generator
    = (PasswordGenerator.Ok (u :: body ++ [d]), s')
    /\ isupper u = true
    /\ Forall (fun c => islower c = true) body
    /\ isdigit d = true
    /\ (Z.to_nat 4 <= 1 + length body <= 3 * Z.to_nat 4)%nat
    /\ draws_only sample_generator s'.
Proof.
  apply (PasswordGeneratorFacts.readable_shape 4 sample_generator).
  - lia.
  - reflexivity.
Defined.

Lemma readable_no_syllable_witness :
  exists d s',
    PasswordGenerator.generate_readable_password 0 sample_generator
    = (PasswordGenerator.Ok [d], s')
    /\ isdigit d = true
    /\ PasswordGenerator.drawn s' = S (PasswordGenerator.drawn sample_generator).
Proof.
  apply (PasswordGeneratorFacts.readable_no_syllable 0 sample_generator).
  - lia.
  - reflexivity.
Defined.

Lemma generators_closed_log_raise_witness :
  (exists s' l',
     PasswordGenerator.generate_segmented_password 4 3 (lit "-") false
       closed_log_generator
     = (PasswordGenerator.Fail (PasswordGenerator.Raised sqlite3_ProgrammingError), s')
     /\ PasswordGenerator.logs s' = Some l'
     /\ LogStorage.rows l' = LogStorage.rows (LogStorage.close sample_log).2)
  /\ (exists s' l',
        PasswordGenerator.generate_readable_password 4 closed_log_generator
        = (PasswordGenerator.Fail (PasswordGenerator.Raised sqlite3_ProgrammingError),
           s')
        /\ PasswordGenerator.logs s' = Some l'
        /\ LogStorage.rows l' = LogStorage.rows (LogStorage.close sample_log).2).
Proof.
  apply (PasswordGeneratorFacts.generators_closed_log_raise 4 3 (lit "-") false 4
           closed_log_generator (LogStorage.close sample_log).2).
  - lia.
  - reflexivity.
  - reflexivity.
Defined.
